(** * A shallow embedding of the stack machine of [sm.cpp]

    The machine of [sm.cpp] is a set of process-wide variables (the
    evaluation stack, the word memory, the instruction pointer and the two
    byte streams) driven by the [for(;;)] loop of [main].  The loop body
    is embedded as a function [step] in a small state-and-outcome monad;
    [exit] and the accesses C++ leaves undefined are outcomes of that
    monad, each carrying the machine as it was when they happened. *)

From Stdlib Require Import ZArith Ascii String List Lia Bool.
From Stdlib Require Import DecimalString HexadecimalString.
From stdpp Require Import base option gmap.

Import ListNotations.
Local Open Scope Z_scope.

(** ** Words *)

Module Word.

(** [int32_t]: the value a 32-bit two's complement register holds after
    an arithmetic result [z] is stored into it. *)
Definition wrap (z : Z) : Z := (z + 2 ^ 31) mod 2 ^ 32 - 2 ^ 31.

Definition int32 (z : Z) : Prop := - 2 ^ 31 <= z < 2 ^ 31.

(** Conversion of an [int32_t] to [size_t] (64 bits), as the usual
    arithmetic conversions do before a mixed comparison. *)
Definition to_size_t (z : Z) : Z := z mod 2 ^ 64.

(** [sizeof(int32_t)] *)
Definition size : Z := 4.

(** [sizeof(memory)/sizeof(int32_t)] for [int32_t memory[1024*1000]]. *)
Definition CAPACITY : Z := 1024 * 1000.

End Word.

Import Word.

(** ** Opcodes *)

Inductive Op : Set :=
| NOP | ADD | SUB | AND | OR | XOR | NOT | IN | OUT
| LOAD | STOR | JMP | JZ | PUSH | DUP.

(** The enumerators number from zero in declaration order. *)
Definition Op_value (op : Op) : Z :=
  match op with
  | NOP => 0 | ADD => 1 | SUB => 2 | AND => 3 | OR => 4 | XOR => 5
  | NOT => 6 | IN => 7 | OUT => 8 | LOAD => 9 | STOR => 10 | JMP => 11
  | JZ => 12 | PUSH => 13 | DUP => 14
  end.

(** [static_cast<Op>(w)]: the enumerator a word denotes, if any.  A word
    with no enumerator keeps its numeric value in C++ and matches no
    [case] label; that is [None] here. *)
Definition Op_of_word (w : Z) : option Op :=
  match w with
  | 0 => Some NOP | 1 => Some ADD | 2 => Some SUB | 3 => Some AND
  | 4 => Some OR | 5 => Some XOR | 6 => Some NOT | 7 => Some IN
  | 8 => Some OUT | 9 => Some LOAD | 10 => Some STOR | 11 => Some JMP
  | 12 => Some JZ | 13 => Some PUSH | 14 => Some DUP
  | _ => None
  end.

(** [to_s]: the [switch] lists NOP..JZ; [default] shares the NOP branch. *)
Definition to_s (op : Op) : string :=
  match op with
  | ADD => "ADD"
  | SUB => "SUB"
  | AND => "AND"
  | OR => "OR"
  | XOR => "XOR"
  | NOT => "NOT"
  | IN => "IN"
  | OUT => "OUT"
  | LOAD => "LOAD"
  | STOR => "STOR"
  | JMP => "JMP"
  | JZ => "JZ"
  | _ => "NOP"
  end.

(** [to_s(static_cast<Op>(w))] as the trace evaluates it on a raw word:
    a word without enumerator reaches [default] too. *)
Definition to_s_word (w : Z) : string :=
  match Op_of_word w with
  | Some op => to_s op
  | None => "NOP"
  end.

(** The name each enumerator is declared under. *)
Definition Op_name (op : Op) : string :=
  match op with
  | NOP => "NOP" | ADD => "ADD" | SUB => "SUB" | AND => "AND"
  | OR => "OR" | XOR => "XOR" | NOT => "NOT" | IN => "IN"
  | OUT => "OUT" | LOAD => "LOAD" | STOR => "STOR" | JMP => "JMP"
  | JZ => "JZ" | PUSH => "PUSH" | DUP => "DUP"
  end.

Definition all_ops : list Op :=
  [NOP; ADD; SUB; AND; OR; XOR; NOT; IN; OUT; LOAD; STOR; JMP; JZ; PUSH; DUP].

(** ** The machine *)

(** What reaches the error stream: a plain line, or one trace line
    ["ip=%d op=%s stack(%d) = %d, %d"] kept as its five arguments. *)
Inductive err_line : Set :=
| Line (s : string)
| Trace (at_ip : Z) (label : string) (depth : nat) (a b : Z).

(** The process-wide variables.  [stack] lists the vector from its back
    (head = top of stack).  [memory] holds the cells that differ from what
    [memset] left; a cell that is absent holds 0.  [fin] is the input still
    unread, [fout] and [stderr] are what was written so far, oldest
    first. *)
Record machine : Type := Machine {
  stack : list Z;
  memory : gmap Z Z;
  ip : Z;
  fin : list ascii;
  fout : list ascii;
  stderr : list err_line
}.

Definition with_stack (v : list Z) (m : machine) : machine :=
  Machine v (memory m) (ip m) (fin m) (fout m) (stderr m).
Definition with_memory (v : gmap Z Z) (m : machine) : machine :=
  Machine (stack m) v (ip m) (fin m) (fout m) (stderr m).
Definition with_ip (v : Z) (m : machine) : machine :=
  Machine (stack m) (memory m) v (fin m) (fout m) (stderr m).
Definition with_fin (v : list ascii) (m : machine) : machine :=
  Machine (stack m) (memory m) (ip m) v (fout m) (stderr m).
Definition with_fout (v : list ascii) (m : machine) : machine :=
  Machine (stack m) (memory m) (ip m) (fin m) v (stderr m).
Definition with_stderr (v : list err_line) (m : machine) : machine :=
  Machine (stack m) (memory m) (ip m) (fin m) (fout m) v.

(** Behaviour the C++ standard leaves undefined and the code can reach. *)
Inductive undefined : Set :=
| BackOfEmpty                 (* stack.back() on an empty vector *)
| OutsideArray (index : Z).   (* memory[index], index not in the array *)

(** How a piece of the program ends: it returns a value, the process
    exits with a status, it runs into undefined behaviour, or (for the
    loop only) the iterations granted are used up. *)
Inductive outcome (A : Type) : Type :=
| Ok (x : A) (m : machine)
| Exit (status : Z) (m : machine)
| Undefined (u : undefined) (m : machine)
| Running (m : machine).

Arguments Ok {A} x m.
Arguments Exit {A} status m.
Arguments Undefined {A} u m.
Arguments Running {A} m.

Definition M (A : Type) : Type := machine -> outcome A.

(** [M] is a monad; the instances give it stdpp's [x ← c; k] and
    [c;; k]. *)
#[global] Instance M_ret : MRet M := fun A x m => Ok x m.

#[global] Instance M_bind : MBind M :=
  fun A B (k : A -> M B) (c : M A) m =>
    match c m with
    | Ok x m' => k x m'
    | Exit s m' => Exit s m'
    | Undefined u m' => Undefined u m'
    | Running m' => Running m'
    end.

Definition get {A} (f : machine -> A) : M A := fun m => Ok (f m) m.
Definition modify (f : machine -> machine) : M unit := fun m => Ok tt (f m).
Definition exit {A} (status : Z) : M A := fun m => Exit status m.
Definition undefined_behaviour {A} (u : undefined) : M A :=
  fun m => Undefined u m.

Definition fprintf_stderr (l : err_line) : M unit :=
  modify (fun m => with_stderr (stderr m ++ [l]) m).

(** ** Memory as an array *)

Definition in_array (a : Z) : bool := (0 <=? a) && (a <? CAPACITY).

Definition cell (mem : gmap Z Z) (a : Z) : Z := default 0 (mem !! a).

(** [memory[a]] as an rvalue. *)
Definition memory_get (a : Z) : M Z :=
  if in_array a then get (fun m => cell (memory m) a)
  else undefined_behaviour (OutsideArray a).

(** [memory[a] = v] *)
Definition memory_set (a v : Z) : M unit :=
  if in_array a then modify (fun m => with_memory (<[a := v]> (memory m)) m)
  else undefined_behaviour (OutsideArray a).

(** ** The functions of [sm.cpp] *)

(** [stop(s, code)] *)
Definition stop (s : string) (code : Z) : M unit :=
  fprintf_stderr (Line s);; exit code.

(** [push(n)]: [stack.push_back(n)] *)
Definition push (n : Z) : M unit :=
  modify (fun m => with_stack (n :: stack m) m).

(** [pop()]: [n = stack.back(); stack.pop_back(); return n;], with no
    test for emptiness. *)
Definition pop : M Z :=
  fun m =>
    match stack m with
    | [] => Undefined BackOfEmpty m
    | n :: rest => Ok n (with_stack rest m)
    end.

(** The test of [check_bounds]:
    [n>=0 && n<=sizeof(memory)/sizeof(int32_t)]; the right operand of
    [&&] compares in [size_t]. *)
Definition within_bounds (n : Z) : bool :=
  (0 <=? n) && (to_size_t n <=? CAPACITY).

(** [check_bounds(n, msg)] *)
Definition check_bounds (n : Z) (msg : string) : M unit :=
  if within_bounds n then mret tt
  else fprintf_stderr (Line (msg ++ " out of bounds"));; exit 1.

(** [i + sizeof(int32_t)], computed in [size_t] and stored into an
    [int32_t]. *)
Definition plus_size (i : Z) : Z := wrap (to_size_t (to_size_t i + size)).

(** The value [next()] leaves in [ip]:
    [ip += sizeof(int32_t); if (ip > sizeof(memory)/sizeof(int32_t)) ip = 0;] *)
Definition next_ip (i : Z) : Z :=
  let i1 := plus_size i in
  if CAPACITY <? to_size_t i1 then 0 else i1.

(** [next()] *)
Definition next : M unit :=
  modify (fun m => with_ip (next_ip (ip m)) m).

(** [reset()]: every cell becomes 0 (= NOP), [ip = 0], the stack is
    cleared. *)
Definition reset : M unit :=
  modify (fun m => with_stack [] (with_ip 0 (with_memory ∅ m))).

(** [load(n)]: [memory[ip] = n; next();]  The overload taking an [Op]
    stores the enumerator's value. *)
Definition load (n : Z) : M unit :=
  i ← get ip; memory_set i n;; next.

Definition load_op (op : Op) : M unit := load (Op_value op).

(** [init()] *)
Definition init : M unit := modify (with_ip 0).

(** ** The byte streams *)

(** A character constant as the [int] it promotes to. *)
Definition chr (c : ascii) : Z := Z.of_N (N_of_ascii c).

(** [getc(fin)]: the next byte as an [unsigned char] converted to [int],
    or [EOF] (-1) when the stream is exhausted. *)
Definition getc : M Z :=
  fun m =>
    match fin m with
    | [] => Ok (-1) m
    | c :: rest => Ok (chr c) (with_fin rest m)
    end.

(** [putc(c, fout)]: writes [c] converted to [unsigned char]. *)
Definition putc (c : Z) : M unit :=
  modify (fun m => with_fout (fout m ++ [ascii_of_N (Z.to_N (c mod 256))]) m).

(** [printf] of a finished line of text; [fout] is [stdout]. *)
Definition printf (s : string) : M unit :=
  modify (fun m => with_fout (fout m ++ list_ascii_of_string s) m).

Definition newline : string := String "010"%char EmptyString.

(** [%x] of a non-negative number. *)
Definition hex (n : Z) : string :=
  HexadecimalString.NilZero.string_of_uint (N.to_hex_uint (Z.to_N n)).

(** [%d] of a non-negative number. *)
Definition dec (n : Z) : string :=
  DecimalString.NilZero.string_of_uint (N.to_uint (Z.to_N n)).

(** One row of the opcode table: [printf("0x%x = %s\n", op, to_s(op))] *)
Definition help_row (op : Op) : string :=
  "0x" ++ hex (Op_value op) ++ " = " ++ to_s op ++ newline.

(** [help()]: the [do ... while] visits NOP up to DUP. *)
Definition help : M unit :=
  fold_right (fun op k => printf (help_row op);; k) (mret tt) all_ops;;
  printf ("To halt program, jump to current position:" ++ newline ++ newline);;
  printf ("0x0 PUSH 0x" ++ hex size ++ newline);;
  printf ("0x" ++ hex size ++ " JMP" ++ newline ++ newline);;
  printf ("Word size is " ++ dec size ++ " bytes" ++ newline);;
  exit 0.

(** ** The loop body of [main] *)

(** The trace line written before every dispatch.  Both [a] and [b] are
    read from [stack[stack.size()-1]]. *)
Definition trace (w : Z) : M unit :=
  fun m =>
    let depth := length (stack m) in
    let a := if (1 <? depth)%nat then hd 0 (stack m) else Op_value NOP in
    let b := if (2 <? depth)%nat then hd 0 (stack m) else Op_value NOP in
    fprintf_stderr (Trace (ip m) (to_s_word w) depth a b) m.

(** The [switch].  For ADD, AND, OR and XOR the two [pop()] calls of one
    expression may run in either order; the result is the same.  The sum
    and the difference are stored as two's complement wraps, which is what
    the register holds where C++ itself gives signed overflow no
    meaning. *)
Definition dispatch (w : Z) : M unit :=
  match Op_of_word w with
  | Some NOP => next
  | Some ADD => x ← pop; y ← pop; push (wrap (x + y));; next
  | Some SUB => a ← pop; b ← pop; push (wrap (a - b));; next
  | Some AND => x ← pop; y ← pop; push (Z.land x y);; next
  | Some OR => x ← pop; y ← pop; push (Z.lor x y);; next
  | Some XOR => x ← pop; y ← pop; push (Z.lxor x y);; next
  | Some NOT => x ← pop; push (if x =? 0 then 1 else 0);; next
  | Some IN => c ← getc; push c;; next
  | Some OUT => c ← pop; putc c;; next
  | Some LOAD =>
      a ← pop; check_bounds a "LOAD";;
      v ← memory_get a; push v;; next
  | Some STOR =>
      a ← pop; b ← pop; check_bounds a "STOR";;
      memory_set a b;; next
  | Some JMP =>
      a ← pop; check_bounds a "JMP";;
      i ← get ip;
      (if a =? i then stop "HALT" 0 else mret tt);;
      modify (with_ip a)
  | Some JZ =>
      a ← pop;
      if negb (a =? 0) then next
      else check_bounds a "JZ";; modify (with_ip a)
  | Some PUSH =>
      next;; i ← get ip; a ← memory_get i; push a;; next
  | Some DUP => a ← pop; push a;; push a;; next
  | None => mret tt
  end.

(** One iteration of [for (;;)]: fetch [memory[ip]], trace, dispatch. *)
Definition step : M unit :=
  i ← get ip; w ← memory_get i; trace w;; dispatch w.

(** [fuel] iterations of the loop; [Running] when they are used up. *)
Fixpoint loop (fuel : nat) (m : machine) : outcome unit :=
  match fuel with
  | O => Running m
  | S fuel' =>
      match step m with
      | Ok _ m' => loop fuel' m'
      | other => other
      end
  end.

(** ** [main] *)

(** [argv[n][0] == '-'] *)
Definition is_flag (arg : string) : bool :=
  match arg with
  | String c _ => Ascii.eqb c "-"
  | EmptyString => false
  end.

(** [for (n=1; n<argc; ++n) if (argv[n][0] == '-') help();] *)
Definition scan_args (argv : list string) : M unit :=
  fold_right (fun arg k => (if is_flag arg then help else mret tt);; k)
             (mret tt) (tl argv).

(** [load(PUSH); load(c); load(OUT);] *)
Definition load_print (c : ascii) : M unit :=
  load_op PUSH;; load (chr c);; load_op OUT.

(** The program [main] writes into memory. *)
Definition load_program : M unit :=
  load_print "H";;
  load_print "e";;
  load_op PUSH;; load (chr "l");; load_op DUP;; load_op OUT;; load_op OUT;;
  load_print "o";;
  load_print " ";;
  load_print "w";;
  load_print "o";;
  load_print "r";;
  load_print "l";;
  load_print "d";;
  load_print "!";;
  load_print "010";;
  load_op PUSH;; (i ← get ip; load (plus_size i));; load_op JMP.

Definition main (argv : list string) (fuel : nat) : M unit :=
  scan_args argv;; reset;; load_program;; init;; loop fuel.

(** The process image at start: zero-initialised globals, [fin] bound to
    the standard input. *)
Definition boot (input : list ascii) : machine :=
  Machine [] ∅ 0 input [] [].

(** ** Reading a machine *)

(** The opcode the next iteration dispatches on, when [ip] lies in the
    array and the word there has an enumerator. *)
Definition fetched (m : machine) : option Op :=
  if in_array (ip m) then Op_of_word (cell (memory m) (ip m)) else None.

(** The machine once the trace line of the iteration is written. *)
Definition traced (m : machine) : machine :=
  let depth := length (stack m) in
  let a := if (1 <? depth)%nat then hd 0 (stack m) else 0 in
  let b := if (2 <? depth)%nat then hd 0 (stack m) else 0 in
  with_stderr
    (stderr m ++ [Trace (ip m) (to_s_word (cell (memory m) (ip m))) depth a b])
    m.

(** How many [pop()] calls the [case] of an opcode makes. *)
Definition operands (op : Op) : nat :=
  match op with
  | NOP | IN | PUSH => 0
  | NOT | OUT | LOAD | JMP | JZ | DUP => 1
  | ADD | SUB | AND | OR | XOR | STOR => 2
  end.

(** The value of a byte read as a signed 8-bit quantity, the reading of
    "sign-extended into a Word". *)
Definition sign_extend8 (b : Z) : Z := if b <? 128 then b else b - 256.

(** ** Sample machines *)

(** PUSH at index 0, with 111 in the next cell and 222 four cells on. *)
Definition push_example : machine :=
  Machine [] {[ 0 := Op_value PUSH; 1 := 111; 4 := 222 ]} 0 [] [] [].

(** IN at index 0, with the single byte 0xFF waiting on the input. *)
Definition in_example : machine :=
  Machine [] {[ 0 := Op_value IN ]} 0 ["255"%char] [] [].

(** JZ at index 0, with -1 on the Stack. *)
Definition jz_example : machine :=
  Machine [-1] {[ 0 := Op_value JZ ]} 0 [] [] [].

(** LOAD at index 0, with -1 on the Stack. *)
Definition load_example : machine :=
  Machine [-1] {[ 0 := Op_value LOAD ]} 0 [] [] [].

(** ADD at index 0, with a single word on the Stack. *)
Definition add_example : machine :=
  Machine [7] {[ 0 := Op_value ADD ]} 0 [] [] [].

(** The word 15, one past DUP, at index 0. *)
Definition unknown_example : machine :=
  Machine [] {[ 0 := 15 ]} 0 [] [] [].

(** ** Well-formed machines *)

(** The machine an outcome carries. *)
Definition machine_of {A} (o : outcome A) : machine :=
  match o with
  | Ok _ m | Exit _ m | Undefined _ m | Running m => m
  end.

(** What the types of [sm.cpp] and its two range tests keep true: the
    Stack and the cells of the array hold [int32_t] values, and [ip] lies
    between 0 and CAPACITY, both included. *)
Definition wf (m : machine) : Prop :=
  Forall int32 (stack m) /\
  (forall a, in_array a = true -> int32 (cell (memory m) a)) /\
  0 <= ip m <= CAPACITY.

(** An undefined access that is an array access is at index CAPACITY. *)
Definition one_past_end (u : undefined) : Prop :=
  match u with
  | OutsideArray i => i = CAPACITY
  | BackOfEmpty => True
  end.

(** [c], started on a machine satisfying [P], returns with [Q], or ends
    on a well-formed machine, an undefined array access being one past
    the end. *)
Definition triple {A} (P : machine -> Prop) (c : M A)
    (Q : A -> machine -> Prop) : Prop :=
  forall m, P m ->
    match c m with
    | Ok x m' => Q x m'
    | Exit _ m' | Running m' => wf m'
    | Undefined u m' => wf m' /\ one_past_end u
    end.

(** How many [push()] calls the [case] of an opcode makes. *)
Definition results (op : Op) : nat :=
  match op with
  | NOP | OUT | STOR | JMP | JZ => 0
  | ADD | SUB | AND | OR | XOR | NOT | IN | LOAD | PUSH => 1
  | DUP => 2
  end.

(** The machine once [printf] has written [s]. *)
Definition say (s : string) (m : machine) : machine :=
  with_fout (fout m ++ list_ascii_of_string s) m.

(** Everything [help()] prints. *)
Definition help_text : string :=
  String.concat "" (map help_row all_ops) ++
  "To halt program, jump to current position:" ++ newline ++ newline ++
  "0x0 PUSH 0x4" ++ newline ++ "0x4 JMP" ++ newline ++ newline ++
  "Word size is 4 bytes" ++ newline.

#[local] Arguments wrap : simpl never.
#[local] Arguments to_size_t : simpl never.
#[local] Arguments plus_size : simpl never.
#[local] Arguments next_ip : simpl never.
#[local] Arguments within_bounds : simpl never.
#[local] Arguments in_array : simpl never.
#[local] Arguments cell : simpl never.
#[local] Arguments to_s_word : simpl never.

(** * Properties *)

(** ** Word arithmetic *)

Section WordFacts.

Lemma CAPACITY_eq : CAPACITY = 1024000.
Proof. reflexivity. Qed.

Lemma wrap_int32 z : int32 z -> wrap z = z.
Proof.
  unfold int32, wrap. intros Hz.
  rewrite Z.mod_small by lia. lia.
Qed.

Lemma to_size_t_small z : 0 <= z < 2 ^ 64 -> to_size_t z = z.
Proof. intros Hz. unfold to_size_t. now apply Z.mod_small. Qed.

Lemma plus_size_small i : 0 <= i <= CAPACITY -> plus_size i = i + size.
Proof.
  intros Hi. rewrite CAPACITY_eq in Hi. unfold plus_size, size.
  rewrite (to_size_t_small i) by lia.
  rewrite to_size_t_small by lia.
  apply wrap_int32. unfold int32. lia.
Qed.

(** [next()] on an [ip] between 0 and CAPACITY: the reset to zero
    happens only strictly above CAPACITY. *)
Lemma next_ip_small i :
  0 <= i <= CAPACITY ->
  next_ip i = if CAPACITY <? i + size then 0 else i + size.
Proof.
  intros Hi. unfold next_ip. cbv zeta. rewrite plus_size_small by exact Hi.
  rewrite CAPACITY_eq in Hi. unfold size.
  rewrite to_size_t_small by lia. reflexivity.
Qed.

Lemma next_ip_advance i :
  0 <= i -> i + size <= CAPACITY -> next_ip i = i + size.
Proof.
  intros H0 Hi. unfold size in *. rewrite next_ip_small by lia.
  unfold size. destruct (Z.ltb_spec CAPACITY (i + 4)); lia.
Qed.

Lemma within_bounds_true n :
  int32 n -> within_bounds n = true <-> 0 <= n <= CAPACITY.
Proof.
  intros Hn. unfold within_bounds. rewrite andb_true_iff, Z.leb_le.
  split.
  - intros [H0 H1]. apply Z.leb_le in H1.
    unfold int32 in Hn. rewrite to_size_t_small in H1 by lia. lia.
  - intros [H0 H1]. split; [exact H0|]. apply Z.leb_le.
    rewrite CAPACITY_eq in H1. rewrite to_size_t_small by lia.
    rewrite CAPACITY_eq. lia.
Qed.

Lemma within_bounds_false n :
  int32 n -> n < 0 \/ CAPACITY < n -> within_bounds n = false.
Proof.
  intros Hn Hout. destruct (within_bounds n) eqn:E; [|reflexivity].
  apply within_bounds_true in E; [lia | exact Hn].
Qed.

Lemma in_array_true a : in_array a = true <-> 0 <= a < CAPACITY.
Proof. unfold in_array. rewrite andb_true_iff, Z.leb_le, Z.ltb_lt. tauto. Qed.

(** An index of the array is an address [check_bounds] accepts. *)
Lemma in_array_within_bounds a : in_array a = true -> within_bounds a = true.
Proof.
  intros Ha. apply in_array_true in Ha. rewrite CAPACITY_eq in Ha.
  apply within_bounds_true; [unfold int32; lia | rewrite CAPACITY_eq; lia].
Qed.

(** [next()] keeps [ip] between 0 and CAPACITY, both included. *)
Lemma next_ip_range i : 0 <= i <= CAPACITY -> 0 <= next_ip i <= CAPACITY.
Proof.
  intros Hi. rewrite next_ip_small by exact Hi. unfold size.
  destruct (Z.ltb_spec CAPACITY (i + 4)); lia.
Qed.

End WordFacts.

(** ** One iteration *)

Lemma fetched_in_array m op : fetched m = Some op -> in_array (ip m) = true.
Proof. unfold fetched. destruct (in_array (ip m)); [reflexivity | discriminate]. Qed.

Lemma fetched_word m op :
  fetched m = Some op -> Op_of_word (cell (memory m) (ip m)) = Some op.
Proof. unfold fetched. destruct (in_array (ip m)); [tauto | discriminate]. Qed.

(** An iteration whose fetch stays inside the array is the dispatch on the
    fetched word, run on the traced machine. *)
Lemma step_dispatch m :
  in_array (ip m) = true ->
  step m = dispatch (cell (memory m) (ip m)) (traced m).
Proof.
  intros Hin. unfold step, mbind, M_bind, get, memory_get.
  rewrite Hin. reflexivity.
Qed.

Lemma step_outside m :
  in_array (ip m) = false -> step m = Undefined (OutsideArray (ip m)) m.
Proof.
  intros Hout. unfold step, mbind, M_bind, get, memory_get.
  rewrite Hout. reflexivity.
Qed.

Lemma Op_of_word_value op : Op_of_word (Op_value op) = Some op.
Proof. destruct op; reflexivity. Qed.

Lemma Op_of_word_inv w op : Op_of_word w = Some op -> w = Op_value op.
Proof.
  unfold Op_of_word. intros H.
  repeat match type of H with
         | match ?x with _ => _ end = _ => destruct x; try discriminate H
         end;
    injection H as <-; reflexivity.
Qed.

Lemma step_op m op :
  fetched m = Some op -> step m = dispatch (Op_value op) (traced m).
Proof.
  intros Hf. rewrite step_dispatch by eauto using fetched_in_array.
  f_equal. f_equal. apply Op_of_word_inv, fetched_word, Hf.
Qed.

(** The trace line changes nothing but the error stream. *)
Lemma stack_traced m : stack (traced m) = stack m.
Proof. reflexivity. Qed.

Lemma ip_traced m : ip (traced m) = ip m.
Proof. reflexivity. Qed.

Lemma fin_traced m : fin (traced m) = fin m.
Proof. reflexivity. Qed.

Lemma memory_traced m : memory (traced m) = memory m.
Proof. reflexivity. Qed.

Lemma fout_traced m : fout (traced m) = fout m.
Proof. reflexivity. Qed.

(** Reduces field reads of updated machines. *)
Ltac sm_fields :=
  cbn [stack memory ip fin fout stderr
       with_stack with_memory with_ip with_fin with_fout with_stderr];
  rewrite ?stack_traced, ?ip_traced, ?fin_traced.

(** Unfolds the monad and the machine primitives of one [case]. *)
Ltac run_case :=
  unfold dispatch; cbn [Op_of_word Op_value];
  unfold check_bounds, stop, next, push, putc, memory_get, memory_set;
  unfold fprintf_stderr;
  unfold mbind, M_bind, mret, M_ret, pop, getc, modify, get, exit,
    undefined_behaviour;
  sm_fields.

(** ** Conditional jump *)

(** C7: JZ pops one value [a]. If [a] is non-zero only [next()] runs; if
    [a] is zero the step is [check_bounds(a)] followed by [ip = a], which
    lands on address 0: the popped word is condition and target at once. *)
Theorem C7_jz_condition_is_target m a rest :
  fetched m = Some JZ ->
  stack m = a :: rest ->
  let popped := with_stack rest (traced m) in
  (a <> 0 -> step m = Ok tt (with_ip (next_ip (ip m)) popped)) /\
  (a = 0 ->
     step m = (check_bounds a "JZ";; modify (with_ip a)) popped /\
     step m = Ok tt (with_ip a popped) /\
     step m = Ok tt (with_ip 0 popped)).
Proof.
  intros Hf Hs popped. rewrite (step_op _ _ Hf). subst popped.
  run_case. rewrite Hs. split.
  - intros Ha. apply Z.eqb_neq in Ha. rewrite Ha. reflexivity.
  - intros ->. repeat split; reflexivity.
Qed.

Lemma C7_jz_witness :
  let m := Machine [0; 5] {[ 8 := Op_value JZ ]} 8 [] [] [] in
  fetched m = Some JZ /\ stack m = [0; 5] /\
  step m = Ok tt (with_ip 0 (with_stack [5] (traced m))).
Proof.
  intros m. split; [vm_compute; reflexivity|]. split; [reflexivity|].
  apply (C7_jz_condition_is_target m 0 [5]); vm_compute; reflexivity.
Defined.

(** ** Ways out of the loop *)

(** Splits [H] on every test the dispatch makes: the input left, a
    bounds check, a comparison of words. *)
Ltac split_tests H :=
  repeat (first
    [ discriminate H
    | match type of H with
      | context [match fin ?m with _ => _ end] => destruct (fin m) eqn:?
      | context [if within_bounds ?a then _ else _] =>
          destruct (within_bounds a) eqn:?
      | context [if in_array ?a then _ else _] => destruct (in_array a) eqn:?
      | context [?a =? ?b] => destruct (a =? b) eqn:?
      end;
      cbn [negb stack memory ip fin fout stderr
           with_stack with_memory with_ip with_fin with_fout with_stderr] in H ]).

(** A single iteration exits the process only in two ways: status 0 from
    a JMP whose popped address is [ip], status 1 from a failed
    [check_bounds]. *)
Lemma step_exit m s m' :
  step m = Exit s m' ->
  (s = 0 /\ fetched m = Some JMP /\ exists rest, stack m = ip m :: rest) \/
  (s = 1 /\ exists op a rest,
      fetched m = Some op /\ stack m = a :: rest /\ within_bounds a = false).
Proof.
  intros H. destruct (in_array (ip m)) eqn:Hin.
  2:{ rewrite step_outside in H by exact Hin. discriminate H. }
  rewrite step_dispatch in H by exact Hin.
  assert (Hf : fetched m = Op_of_word (cell (memory m) (ip m)))
    by (unfold fetched; rewrite Hin; reflexivity).
  unfold dispatch in H.
  destruct (Op_of_word (cell (memory m) (ip m))) as [op|]; [|discriminate H].
  destruct op; revert H; run_case; intros H;
    destruct (stack m) as [|x [|y l]] eqn:Hs; try discriminate H;
    cbn [stack with_stack] in H; split_tests H;
    injection H as <- <-;
    try (right; split; [reflexivity|]; eauto 10 using eq_refl);
    try (left; split; [reflexivity|]; split; [exact Hf|];
         match goal with E : (_ =? _) = true |- _ => apply Z.eqb_eq in E end;
         subst; eauto).
Qed.

Lemma step_not_running m m' : step m <> Running m'.
Proof.
  intros H. destruct (in_array (ip m)) eqn:Hin.
  2:{ rewrite step_outside in H by exact Hin. discriminate H. }
  rewrite step_dispatch in H by exact Hin. unfold dispatch in H.
  destruct (Op_of_word (cell (memory m) (ip m))) as [op|]; [|discriminate H].
  destruct op; revert H; run_case; intros H;
    destruct (stack m) as [|x [|y l]] eqn:Hs; try discriminate H;
    cbn [stack with_stack] in H; split_tests H.
Qed.

(** An exit of the loop is the exit of one of its iterations. *)
Lemma loop_exit fuel : forall m s m',
  loop fuel m = Exit s m' ->
  exists k m1, loop k m = Running m1 /\ step m1 = Exit s m'.
Proof.
  induction fuel as [|fuel IH]; intros m s m' H; cbn [loop] in H.
  - discriminate H.
  - destruct (step m) as [[] m1|s1 m1|u m1|m1] eqn:Hstep; try discriminate H.
    + destruct (IH _ _ _ H) as (k & m2 & Hk & Hexit).
      exists (S k), m2. cbn [loop]. rewrite Hstep. auto.
    + injection H as -> ->. exists O, m. auto.
Qed.

(** C2: JMP pops an address [a]. If [a] is the current [ip], the index
    of the JMP word itself, the process exits with status 0 after printing
    HALT, and no jump is made; otherwise, [a] being an address that
    [check_bounds] accepts, [ip] becomes [a] and [next()] is not run.
    Whenever the loop exits with status 0 it does so in such a
    self-jump. *)
Theorem C2_jmp_self_jump_halts m a rest :
  fetched m = Some JMP ->
  stack m = a :: rest ->
  let popped := with_stack rest (traced m) in
  (a = ip m ->
     step m = Exit 0 (with_stderr (stderr popped ++ [Line "HALT"]) popped)) /\
  (a <> ip m -> within_bounds a = true -> step m = Ok tt (with_ip a popped)) /\
  (forall fuel m0 m',
     loop fuel m0 = Exit 0 m' ->
     exists k m1 rest1,
       loop k m0 = Running m1 /\ fetched m1 = Some JMP /\
       stack m1 = ip m1 :: rest1 /\ step m1 = Exit 0 m').
Proof.
  intros Hf Hs popped. rewrite (step_op _ _ Hf). subst popped.
  run_case. rewrite Hs. sm_fields.
  split; [|split].
  - intros ->.
    rewrite (in_array_within_bounds _ (fetched_in_array _ _ Hf)).
    sm_fields. rewrite Z.eqb_refl. reflexivity.
  - intros Hne Hb. apply Z.eqb_neq in Hne. rewrite Hb. sm_fields.
    rewrite Hne. reflexivity.
  - intros fuel m0 m' Hloop.
    destruct (loop_exit _ _ _ _ Hloop) as (k & m1 & Hk & Hexit).
    destruct (step_exit _ _ _ Hexit) as [(_ & Hj & rest1 & Hs1)|(Hone & _)];
      [|discriminate Hone].
    exists k, m1, rest1. auto.
Qed.

Lemma C2_jmp_witness :
  let m := Machine [8] {[ 8 := Op_value JMP ]} 8 [] [] [] in
  fetched m = Some JMP /\ stack m = [8] /\
  step m = Exit 0 (with_stderr [Trace 8 "JMP" 1 0 0; Line "HALT"]
                     (with_stack [] m)).
Proof.
  intros m. split; [vm_compute; reflexivity|]. split; [reflexivity|].
  apply (C2_jmp_self_jump_halts m 8 []); vm_compute; reflexivity.
Defined.

(** ** The demo program *)

(** The image [main] builds: 41 words at indices 0, 4, ..., 160, the last
    three being PUSH 160, JMP with the JMP word at index 160. *)
Lemma load_program_image input :
  exists m,
    (reset;; load_program) (boot input) = Ok tt m /\
    ip m = 164 /\
    map (fun k => cell (memory m) (size * Z.of_nat k)) (seq 0 41) =
      [13; 72; 8;  13; 101; 8;  13; 108; 14; 8; 8;  13; 111; 8;
       13; 32; 8;  13; 119; 8;  13; 111; 8;  13; 114; 8;  13; 108; 8;
       13; 100; 8;  13; 33; 8;  13; 10; 8;  13; 160; 11].
Proof. eexists. split; [vm_compute; reflexivity|]. split; reflexivity. Qed.

(** C1: run without arguments, whatever the program name and the standard
    input, [main] exits with status 0 within 28 iterations of its loop,
    having written the thirteen bytes of "Hello world!" and a newline to
    [fout], in that order, and nothing else. *)
Theorem C1_demo_prints_hello_world (argv0 : string) (input : list ascii)
    (extra : nat) :
  exists m,
    main [argv0] (28 + extra) (boot input) = Exit 0 m /\
    fout m = list_ascii_of_string ("Hello world!" ++ newline) /\
    length (fout m) = 13%nat.
Proof.
  eexists. split; [vm_compute; reflexivity|]. split; reflexivity.
Qed.

(** ** PUSH *)

(** PUSH at index 0 with 111 in the next cell and 222 four cells on:
    222 is pushed and execution goes on at index 8, not 111 and index 2. *)
Lemma C8_push_skips_three_cells :
  fetched push_example = Some PUSH /\
  cell (memory push_example) (ip push_example + 1) = 111 /\
  exists m', step push_example = Ok tt m' /\
    stack m' = [222] /\ ip m' = 8 /\
    stack m' <> [cell (memory push_example) (ip push_example + 1)] /\
    ip m' <> ip push_example + 2.
Proof.
  split; [vm_compute; reflexivity|]. split; [vm_compute; reflexivity|].
  eexists. split; [vm_compute; reflexivity|].
  cbn [stack ip]. repeat split; [|vm_compute]; discriminate.
Qed.

(** C8 as the code has it: PUSH runs [next()], which adds [sizeof(int32_t)] = 4 to
    the index [ip], reads the cell at the new [ip] as the immediate, pushes
    it and runs [next()] again. While [ip + 8] does not exceed CAPACITY the
    immediate is the cell four indices after the PUSH word and execution
    goes on eight indices after it. *)
Theorem C8_push_immediate_four_cells_on m :
  fetched m = Some PUSH ->
  0 <= ip m ->
  ip m + 2 * size <= CAPACITY ->
  next_ip (ip m) = ip m + size /\
  next_ip (ip m + size) = ip m + 2 * size /\
  step m = Ok tt (with_ip (ip m + 2 * size)
                    (with_stack (cell (memory m) (ip m + size) :: stack m)
                       (traced m))).
Proof.
  intros Hf H0 Hcap. unfold size in *.
  assert (H1 : next_ip (ip m) = ip m + 4)
    by (apply next_ip_advance; unfold size; lia).
  assert (H2 : next_ip (ip m + 4) = ip m + 2 * 4)
    by (rewrite next_ip_advance; unfold size; lia).
  split; [exact H1|]. split; [exact H2|].
  rewrite (step_op _ _ Hf). run_case. rewrite H1.
  assert (Hin : in_array (ip m + 4) = true)
    by (apply in_array_true; rewrite CAPACITY_eq in *; lia).
  rewrite Hin. sm_fields. rewrite ?H1, H2. reflexivity.
Qed.

Lemma C8_push_witness :
  fetched push_example = Some PUSH /\
  0 <= ip push_example /\
  ip push_example + 2 * size <= CAPACITY /\
  step push_example =
    Ok tt (with_ip 8 (with_stack [222] (traced push_example))).
Proof.
  split; [vm_compute; reflexivity|]. split; [vm_compute; discriminate|].
  split; [vm_compute; discriminate|].
  apply (C8_push_immediate_four_cells_on push_example);
    vm_compute; (reflexivity || discriminate).
Defined.

(** ** IN *)

(** Reading the byte 0xFF pushes 255; its sign extension would be -1. *)
Lemma C9_in_byte_255_not_sign_extended :
  fetched in_example = Some IN /\
  fin in_example = ["255"%char] /\
  sign_extend8 (chr "255") = -1 /\
  exists m', step in_example = Ok tt m' /\
    stack m' = [255] /\ stack m' <> [sign_extend8 (chr "255")].
Proof.
  split; [vm_compute; reflexivity|]. split; [reflexivity|].
  split; [reflexivity|].
  eexists. split; [vm_compute; reflexivity|].
  split; [reflexivity|]. vm_compute. discriminate.
Qed.

Lemma chr_range c : 0 <= chr c < 256.
Proof.
  unfold chr. pose proof (N_ascii_bounded c) as Hc. lia.
Qed.

(** C9 as the code has it: IN takes one byte from the input and pushes its value
    as [getc] returns it, an [unsigned char] converted to [int], hence
    between 0 and 255 (zero-extended); when the input is exhausted it
    pushes -1. Either way [next()] follows. *)
Theorem C9_in_pushes_unsigned_byte_or_eof m :
  fetched m = Some IN ->
  step m =
    Ok tt
      match fin m with
      | [] => with_ip (next_ip (ip m)) (with_stack (-1 :: stack m) (traced m))
      | c :: rest =>
          with_ip (next_ip (ip m))
            (with_stack (chr c :: stack m) (with_fin rest (traced m)))
      end /\
  forall c, 0 <= chr c < 256.
Proof.
  intros Hf. split; [|exact chr_range].
  rewrite (step_op _ _ Hf). run_case.
  destruct (fin m); reflexivity.
Qed.

Lemma C9_in_witness :
  fetched in_example = Some IN /\
  step in_example =
    Ok tt (with_ip 4 (with_stack [255] (with_fin [] (traced in_example)))).
Proof.
  split; [vm_compute; reflexivity|].
  apply (C9_in_pushes_unsigned_byte_or_eof in_example).
  vm_compute; reflexivity.
Defined.

(** ** Addresses out of range *)

(** JZ popping -1, an address below zero: no OutOfBounds failure, the
    iteration just moves on to index 4. *)
Lemma C3_jz_out_of_range_goes_on :
  fetched jz_example = Some JZ /\
  stack jz_example = [-1] /\
  -1 < 0 /\
  step jz_example = Ok tt (with_ip 4 (with_stack [] (traced jz_example))).
Proof.
  split; [vm_compute; reflexivity|]. split; [reflexivity|].
  split; [reflexivity|]. vm_compute. reflexivity.
Qed.

(** C3 as the code has it: for LOAD, JMP and STOR (given its two operands) a popped
    address below 0 or above CAPACITY makes [check_bounds] print
    "<OP> out of bounds" and exit with status 1; Memory, the output port
    and [ip] are as before the instruction, so no cell was read or written
    and no address was clamped or wrapped. JZ checks only a popped zero:
    with an out-of-range, hence non-zero, value it does not fail, it runs
    [next()] and leaves Memory alone. *)
Theorem C3_out_of_range_address m op a rest :
  fetched m = Some op ->
  stack m = a :: rest ->
  int32 a ->
  a < 0 \/ CAPACITY < a ->
  (op = LOAD \/ op = JMP \/ (op = STOR /\ rest <> []) ->
     exists m',
       step m = Exit 1 m' /\
       memory m' = memory m /\ fout m' = fout m /\ ip m' = ip m /\
       stderr m' = stderr (traced m) ++ [Line (Op_name op ++ " out of bounds")]) /\
  (op = JZ ->
     step m = Ok tt (with_ip (next_ip (ip m)) (with_stack rest (traced m)))).
Proof.
  intros Hf Hs Ha Hout. rewrite (step_op _ _ Hf).
  pose proof (within_bounds_false a Ha Hout) as Hb.
  split.
  - intros [-> | [-> | [-> Hrest]]].
    + run_case. rewrite Hs. sm_fields. rewrite Hb.
      eexists. split; [reflexivity|]. repeat split.
    + run_case. rewrite Hs. sm_fields. rewrite Hb.
      eexists. split; [reflexivity|]. repeat split.
    + destruct rest as [|b rest]; [congruence|].
      run_case. rewrite Hs. sm_fields. rewrite Hb.
      eexists. split; [reflexivity|]. repeat split.
  - intros ->. run_case. rewrite Hs. sm_fields.
    assert (Hnz : (a =? 0) = false)
      by (apply Z.eqb_neq; rewrite CAPACITY_eq in Hout; lia).
    rewrite Hnz. reflexivity.
Qed.

Lemma C3_out_of_range_witness :
  fetched load_example = Some LOAD /\
  stack load_example = [-1] /\
  int32 (-1) /\
  (-1 < 0 \/ CAPACITY < -1) /\
  exists m',
    step load_example = Exit 1 m' /\
    memory m' = memory load_example /\ fout m' = fout load_example /\
    ip m' = ip load_example /\
    stderr m' = stderr (traced load_example) ++ [Line "LOAD out of bounds"].
Proof.
  split; [vm_compute; reflexivity|]. split; [reflexivity|].
  split; [unfold int32; lia|]. split; [left; lia|].
  apply (C3_out_of_range_address load_example LOAD (-1) []);
    [vm_compute; reflexivity | reflexivity | unfold int32; lia | left; lia
    | left; reflexivity].
Defined.

(** The address CAPACITY itself passes [check_bounds]: LOAD then reads
    [memory[CAPACITY]], one cell past the array. *)
Lemma load_at_capacity_passes_check m rest :
  fetched m = Some LOAD ->
  stack m = CAPACITY :: rest ->
  step m = Undefined (OutsideArray CAPACITY) (with_stack rest (traced m)).
Proof.
  intros Hf Hs. rewrite (step_op _ _ Hf). run_case. rewrite Hs. reflexivity.
Qed.

(** ** Too few operands *)

(** ADD on a stack of one word: the second [pop()] takes the back of an
    empty vector. No exit happens, with status 1 or any other. *)
Lemma C4_add_underflow_not_fatal :
  fetched add_example = Some ADD /\
  (length (stack add_example) < 2)%nat /\
  step add_example =
    Undefined BackOfEmpty (with_stack [] (traced add_example)) /\
  step add_example <> Exit 1 (with_stack [] (traced add_example)).
Proof.
  split; [vm_compute; reflexivity|]. split; [cbn; lia|].
  split; [vm_compute; reflexivity|]. vm_compute. discriminate.
Qed.

(** C4 as the code has it: no opcode tests the depth of the Stack. When the Stack
    holds fewer words than the opcode pops, the code reaches [pop()] on an
    empty vector, which C++ leaves undefined: there is no StackUnderflow
    error and no exit. Up to that point Memory and the output port have
    not been changed. *)
Theorem C4_pop_on_empty_unchecked m op :
  fetched m = Some op ->
  (length (stack m) < operands op)%nat ->
  exists m',
    step m = Undefined BackOfEmpty m' /\
    stack m' = [] /\ memory m' = memory m /\ fout m' = fout m.
Proof.
  intros Hf Hlen. rewrite (step_op _ _ Hf).
  destruct op; cbn [operands] in Hlen; try lia;
    destruct (stack m) as [|x [|y l]] eqn:Hs; cbn [length] in Hlen; try lia;
    run_case; rewrite Hs; sm_fields;
    (eexists; split; [reflexivity|]; repeat split; exact Hs).
Qed.

Lemma C4_pop_on_empty_witness :
  fetched add_example = Some ADD /\
  (length (stack add_example) < operands ADD)%nat /\
  exists m',
    step add_example = Undefined BackOfEmpty m' /\
    stack m' = [] /\ memory m' = memory add_example /\
    fout m' = fout add_example.
Proof.
  split; [vm_compute; reflexivity|]. split; [cbn; lia|].
  apply (C4_pop_on_empty_unchecked add_example ADD);
    [vm_compute; reflexivity | cbn; lia].
Defined.

(** ** Words without an opcode *)

(** The word 15 at [ip]: the iteration ends normally, with no exit and
    nothing changed but the trace. *)
Lemma C5_unknown_word_not_fatal :
  in_array (ip unknown_example) = true /\
  cell (memory unknown_example) (ip unknown_example) = 15 /\
  Op_of_word 15 = None /\
  step unknown_example = Ok tt (traced unknown_example) /\
  step unknown_example <> Exit 1 (traced unknown_example).
Proof.
  split; [reflexivity|]. split; [vm_compute; reflexivity|].
  split; [reflexivity|]. split; [vm_compute; reflexivity|].
  vm_compute. discriminate.
Qed.

Lemma step_unknown_word m :
  in_array (ip m) = true ->
  Op_of_word (cell (memory m) (ip m)) = None ->
  step m = Ok tt (traced m).
Proof.
  intros Hin Hw. rewrite step_dispatch by exact Hin.
  unfold dispatch. rewrite Hw. reflexivity.
Qed.

Lemma loop_unknown_word fuel : forall m,
  in_array (ip m) = true ->
  Op_of_word (cell (memory m) (ip m)) = None ->
  exists m',
    loop fuel m = Running m' /\
    stack m' = stack m /\ memory m' = memory m /\ ip m' = ip m /\
    fin m' = fin m /\ fout m' = fout m /\
    length (stderr m') = (length (stderr m) + fuel)%nat.
Proof.
  induction fuel as [|fuel IH]; intros m Hin Hw; cbn [loop].
  - exists m. repeat split. lia.
  - rewrite step_unknown_word by assumption.
    destruct (IH (traced m)) as (m' & Hl & Hst & Hmem & Hip & Hfi & Hfo & Herr).
    + exact Hin.
    + exact Hw.
    + exists m'. split; [exact Hl|].
      repeat split; try assumption.
      rewrite Herr. unfold traced. cbn [stderr with_stderr].
      rewrite length_app. cbn [length]. lia.
Qed.

(** C5 as the code has it: when the word fetched at [ip] has no enumerator, no
    [case] of the [switch] runs. The iteration writes its trace line and
    ends with [ip], Stack, Memory and both ports unchanged, so the loop
    fetches the same word again: whatever the number of iterations it is
    still running, it never exits, with status 1 or otherwise. The word is
    not run as NOP either, since [ip] does not advance. *)
Theorem C5_unknown_word_spins m :
  in_array (ip m) = true ->
  Op_of_word (cell (memory m) (ip m)) = None ->
  step m = Ok tt (traced m) /\
  forall fuel,
    exists m',
      loop fuel m = Running m' /\
      stack m' = stack m /\ memory m' = memory m /\ ip m' = ip m /\
      fin m' = fin m /\ fout m' = fout m /\
      length (stderr m') = (length (stderr m) + fuel)%nat.
Proof.
  intros Hin Hw. split.
  - apply step_unknown_word; assumption.
  - intros fuel. apply loop_unknown_word; assumption.
Qed.

Lemma C5_unknown_word_witness :
  in_array (ip unknown_example) = true /\
  Op_of_word (cell (memory unknown_example) (ip unknown_example)) = None /\
  step unknown_example = Ok tt (traced unknown_example).
Proof.
  split; [reflexivity|]. split; [vm_compute; reflexivity|].
  apply (C5_unknown_word_spins unknown_example);
    [reflexivity | vm_compute; reflexivity].
Defined.

(** ** The instruction pointer at the end of Memory *)

(** Over cells that all hold NOP, [k] iterations advance [ip] by [4 k] as
    long as that stays at or below CAPACITY. *)
Lemma loop_nops k : forall m,
  (forall a, in_array a = true -> cell (memory m) a = Op_value NOP) ->
  0 <= ip m ->
  ip m + size * Z.of_nat k <= CAPACITY ->
  exists m',
    loop k m = Running m' /\
    ip m' = ip m + size * Z.of_nat k /\
    memory m' = memory m /\ stack m' = stack m.
Proof.
  induction k as [|k IH]; intros m Hnop H0 Hcap; cbn [loop].
  - exists m. repeat split. lia.
  - unfold size in *.
    assert (Hin : in_array (ip m) = true)
      by (apply in_array_true; lia).
    rewrite step_dispatch by exact Hin. rewrite (Hnop _ Hin).
    run_case.
    assert (Hnext : next_ip (ip m) = ip m + 4)
      by (apply next_ip_advance; unfold size; lia).
    rewrite Hnext.
    destruct (IH (with_ip (ip m + 4) (traced m))) as (m' & Hl & Hip & Hmem & Hst).
    + exact Hnop.
    + cbn [ip with_ip]. lia.
    + cbn [ip with_ip]. lia.
    + exists m'. split; [exact Hl|]. cbn [ip with_ip] in Hip.
      repeat split; try assumption. lia.
Qed.

(** C6, a run that breaks it: from the Memory [reset()] leaves, all NOP, 256000
    iterations bring [ip] to 1024000 = CAPACITY, because [next()] resets
    [ip] only when it is greater than CAPACITY. The next fetch is
    [memory[CAPACITY]], outside the array. *)
Theorem C6_ip_reaches_capacity (input : list ascii) :
  exists m m',
    reset (boot input) = Ok tt m /\
    loop (Z.to_nat 256000) m = Running m' /\
    ip m' = CAPACITY /\
    in_array (ip m') = false /\
    step m' = Undefined (OutsideArray CAPACITY) m'.
Proof.
  eexists.
  destruct (loop_nops (Z.to_nat 256000) (Machine [] ∅ 0 input [] []))
    as (m' & Hl & Hip & _).
  - intros a _. reflexivity.
  - cbn [ip]. lia.
  - cbn [ip]. rewrite Z2Nat.id by lia. rewrite CAPACITY_eq. unfold size. lia.
  - exists m'. split; [reflexivity|]. split; [exact Hl|].
    cbn [ip] in Hip. rewrite Z2Nat.id in Hip by lia.
    assert (Hcap : ip m' = CAPACITY) by (rewrite Hip; reflexivity).
    split; [exact Hcap|].
    assert (Hout : in_array (ip m') = false) by (rewrite Hcap; reflexivity).
    split; [exact Hout|].
    rewrite step_outside by exact Hout. rewrite Hcap. reflexivity.
Qed.

(** The same index is reached by a jump: [check_bounds] accepts the
    address CAPACITY. *)
Lemma jmp_to_capacity_accepted m rest :
  fetched m = Some JMP ->
  stack m = CAPACITY :: rest ->
  step m = Ok tt (with_ip CAPACITY (with_stack rest (traced m))).
Proof.
  intros Hf Hs. rewrite (step_op _ _ Hf). run_case. rewrite Hs.
  sm_fields.
  assert (Hne : (CAPACITY =? ip m) = false).
  { apply Z.eqb_neq. apply fetched_in_array, in_array_true in Hf. lia. }
  change (within_bounds CAPACITY) with true. sm_fields. rewrite Hne.
  reflexivity.
Qed.

(** ** Opcode names *)

(** PUSH is an opcode other than DUP whose name [to_s] does not return. *)
Lemma C10_push_also_named_nop :
  PUSH <> DUP /\ Op_name PUSH = "PUSH"%string /\ to_s PUSH = "NOP"%string /\
  to_s PUSH <> Op_name PUSH.
Proof. repeat split; discriminate. Qed.

(** C10 as the code has it: [to_s] has no [case] for PUSH nor for DUP, so it
    returns "NOP" for both and its own name for each of NOP .. JZ. The
    rows of the help table for PUSH and DUP read "0xd = NOP" and
    "0xe = NOP", and the trace line of an iteration that fetched PUSH or
    DUP carries the label "NOP". *)
Theorem C10_to_s_names :
  (forall op,
     to_s op = match op with PUSH | DUP => "NOP"%string | _ => Op_name op end) /\
  help_row PUSH = ("0xd = NOP" ++ newline)%string /\
  help_row DUP = ("0xe = NOP" ++ newline)%string /\
  (forall m, exists m',
     help m = Exit 0 m' /\
     fout m' =
       fout m ++
       list_ascii_of_string (String.concat "" (map help_row all_ops)) ++
       list_ascii_of_string
         ("To halt program, jump to current position:" ++ newline ++ newline ++
          "0x0 PUSH 0x4" ++ newline ++ "0x4 JMP" ++ newline ++ newline ++
          "Word size is 4 bytes" ++ newline)) /\
  (forall op m,
     exists depth a b,
       trace (Op_value op) m =
         Ok tt (with_stderr
                  (stderr m ++
                   [Trace (ip m)
                      match op with
                      | PUSH | DUP => "NOP"%string
                      | _ => Op_name op
                      end
                      depth a b])
                  m)).
Proof.
  split; [intros op; destruct op; reflexivity|].
  split; [reflexivity|]. split; [reflexivity|].
  split.
  - intros m. eexists. split; [reflexivity|].
    cbn [fout with_fout]. rewrite <- !app_assoc. reflexivity.
  - intros op m. do 3 eexists. unfold trace, fprintf_stderr, modify.
    destruct op; reflexivity.
Qed.

(** * Further properties of the machine *)

(** ** Ranges of words *)

Lemma wrap_range z : int32 (wrap z).
Proof.
  unfold int32, wrap.
  pose proof (Z.mod_pos_bound (z + 2 ^ 31) (2 ^ 32) ltac:(lia)). lia.
Qed.

(** A word is an [int32_t] when everything above its low 31 bits is the
    sign: the arithmetic shift by 31 leaves 0 or -1. *)
Lemma int32_shiftr z :
  int32 z <-> Z.shiftr z 31 = 0 \/ Z.shiftr z 31 = -1.
Proof.
  unfold int32. rewrite Z.shiftr_div_pow2 by lia.
  pose proof (Z.div_mod z (2 ^ 31) ltac:(lia)) as Hdm.
  pose proof (Z.mod_pos_bound z (2 ^ 31) ltac:(lia)) as Hr.
  change (2 ^ 31) with 2147483648 in *. lia.
Qed.

Lemma land_int32 x y : int32 x -> int32 y -> int32 (Z.land x y).
Proof.
  rewrite !int32_shiftr, Z.shiftr_land.
  intros [-> | ->] [-> | ->]; cbn; auto.
Qed.

Lemma lor_int32 x y : int32 x -> int32 y -> int32 (Z.lor x y).
Proof.
  rewrite !int32_shiftr, Z.shiftr_lor.
  intros [-> | ->] [-> | ->]; cbn; auto.
Qed.

Lemma lxor_int32 x y : int32 x -> int32 y -> int32 (Z.lxor x y).
Proof.
  rewrite !int32_shiftr, Z.shiftr_lxor.
  intros [-> | ->] [-> | ->]; cbn; auto.
Qed.

Lemma chr_int32 c : int32 (chr c).
Proof. pose proof (chr_range c). unfold int32. lia. Qed.

Lemma plus_size_int32 i : int32 (plus_size i).
Proof. apply wrap_range. Qed.

(** X1: whatever [ip] holds, [next()] leaves it between 0 and CAPACITY:
    a sum that came out negative or above CAPACITY is replaced by 0. From
    an [ip] in that range the result is [ip + 4] up to CAPACITY included,
    and 0 beyond. *)
Theorem next_ip_always_in_range i :
  0 <= next_ip i <= CAPACITY /\
  (0 <= i <= CAPACITY ->
     (i + size <= CAPACITY -> next_ip i = i + size) /\
     (CAPACITY < i + size -> next_ip i = 0)).
Proof.
  split.
  - unfold next_ip. cbv zeta.
    pose proof (plus_size_int32 i) as Hp. unfold int32 in Hp.
    destruct (Z.ltb_spec CAPACITY (to_size_t (plus_size i))) as [Hlt|Hle].
    + rewrite CAPACITY_eq. lia.
    + destruct (Z.lt_ge_cases (plus_size i) 0) as [Hneg|Hpos].
      * exfalso. unfold to_size_t in Hle.
        replace (plus_size i) with (plus_size i + 2 ^ 64 + (-1) * 2 ^ 64) in Hle
          by lia.
        rewrite Z_mod_plus_full, Z.mod_small in Hle by lia.
        rewrite CAPACITY_eq in Hle. lia.
      * rewrite to_size_t_small in Hle by lia. lia.
  - intros Hi. rewrite next_ip_small by exact Hi.
    split; intros H; destruct (Z.ltb_spec CAPACITY (i + size)); lia.
Qed.

(** ** Well-formedness is kept *)

Lemma triple_ret {A} (P : machine -> Prop) (x : A) :
  triple P (mret x) (fun y m => P m /\ y = x).
Proof. intros m Hm. cbn. auto. Qed.

Lemma triple_bind {A B} P (c : M A) Q (k : A -> M B) R :
  triple P c Q -> (forall x, triple (Q x) (k x) R) -> triple P (c ≫= k) R.
Proof.
  intros Hc Hk m Hm. specialize (Hc m Hm).
  unfold mbind, M_bind. destruct (c m) as [x m1|s m1|u m1|m1]; try exact Hc.
  apply Hk, Hc.
Qed.

Lemma triple_weaken {A} (P P' : machine -> Prop) (c : M A)
    (Q Q' : A -> machine -> Prop) :
  triple P' c Q' ->
  (forall m, P m -> P' m) -> (forall x m, Q' x m -> Q x m) ->
  triple P c Q.
Proof.
  intros Hc HP HQ m Hm. specialize (Hc m (HP m Hm)).
  destruct (c m); auto.
Qed.

(** A fact established earlier is carried as part of the precondition. *)
Lemma triple_assume {A} (F : Prop) (c : M A) Q :
  (F -> triple wf c Q) -> triple (fun m => wf m /\ F) c Q.
Proof. intros Hc m [Hm HF]. apply Hc; assumption. Qed.

Lemma triple_pop : triple wf pop (fun x m => wf m /\ int32 x).
Proof.
  intros m (Hs & Hm & Hi). unfold pop.
  destruct (stack m) as [|n rest] eqn:E.
  - split; [|exact I]. unfold wf. rewrite E. auto.
  - apply Forall_cons_iff in Hs as [Hn Hrest]. unfold wf. cbn. auto.
Qed.

Lemma triple_push n : int32 n -> triple wf (push n) (fun _ m => wf m).
Proof.
  intros Hn m (Hs & Hm & Hi). unfold push, modify, wf. cbn. auto.
Qed.

Lemma triple_next : triple wf next (fun _ m => wf m).
Proof.
  intros m (Hs & Hm & Hi). unfold next, modify, wf. cbn.
  split; [exact Hs|]. split; [exact Hm|].
  apply next_ip_always_in_range.
Qed.

Lemma triple_getc : triple wf getc (fun c m => wf m /\ int32 c).
Proof.
  intros m Hwf. unfold getc. destruct (fin m) as [|c rest].
  - split; [exact Hwf|]. unfold int32. lia.
  - split; [exact Hwf | apply chr_int32].
Qed.

Lemma triple_putc c : triple wf (putc c) (fun _ m => wf m).
Proof. intros m Hwf. exact Hwf. Qed.

Lemma triple_printf s : triple wf (printf s) (fun _ m => wf m).
Proof. intros m Hwf. exact Hwf. Qed.

Lemma triple_fprintf_stderr l : triple wf (fprintf_stderr l) (fun _ m => wf m).
Proof. intros m Hwf. exact Hwf. Qed.

Lemma triple_stop s code Q : triple wf (stop s code) Q.
Proof. intros m Hwf. exact Hwf. Qed.

Lemma triple_check_bounds n msg :
  triple wf (check_bounds n msg) (fun _ m => wf m /\ within_bounds n = true).
Proof.
  intros m Hwf. unfold check_bounds.
  destruct (within_bounds n) eqn:E; [split; auto | exact Hwf].
Qed.

Lemma triple_memory_get a :
  0 <= a <= CAPACITY ->
  triple wf (memory_get a) (fun v m => wf m /\ int32 v).
Proof.
  intros Ha m Hwf. unfold memory_get.
  destruct (in_array a) eqn:E.
  - split; [exact Hwf|]. destruct Hwf as (_ & Hm & _). apply Hm, E.
  - split; [exact Hwf|]. cbn.
    destruct (Z.eq_dec a CAPACITY) as [->|Hne]; [reflexivity|].
    assert (in_array a = true) by (apply in_array_true; lia). congruence.
Qed.

Lemma cell_insert (mem : gmap Z Z) a v b :
  cell (<[a := v]> mem) b = if decide (a = b) then v else cell mem b.
Proof. unfold cell. rewrite lookup_insert. destruct (decide (a = b)); reflexivity. Qed.

Lemma triple_memory_set a v :
  0 <= a <= CAPACITY -> int32 v ->
  triple wf (memory_set a v) (fun _ m => wf m).
Proof.
  intros Ha Hv m Hwf. unfold memory_set.
  destruct (in_array a) eqn:E.
  - destruct Hwf as (Hs & Hm & Hi). unfold modify, wf. cbn.
    split; [exact Hs|]. split; [|exact Hi].
    intros b Hb. rewrite cell_insert. destruct (decide (a = b)); auto.
  - split; [exact Hwf|]. cbn.
    destruct (Z.eq_dec a CAPACITY) as [->|Hne]; [reflexivity|].
    assert (in_array a = true) by (apply in_array_true; lia). congruence.
Qed.

Lemma triple_get_ip :
  triple wf (get ip) (fun i m => wf m /\ 0 <= i <= CAPACITY).
Proof. intros m Hwf. split; [exact Hwf | apply Hwf]. Qed.

Lemma triple_set_ip a :
  0 <= a <= CAPACITY -> triple wf (modify (with_ip a)) (fun _ m => wf m).
Proof.
  intros Ha m (Hs & Hm & Hi). unfold modify, wf. cbn. auto.
Qed.

Lemma triple_trace w : triple wf (trace w) (fun _ m => wf m).
Proof. intros m Hwf. exact Hwf. Qed.

(** Chains the rules above along a sequence of binds. *)
Ltac triple_auto :=
  repeat first
    [ apply triple_assume; intros ?
    | apply triple_next
    | apply triple_putc
    | apply triple_stop
    | apply triple_push; eauto using wrap_range, land_int32, lor_int32, lxor_int32
    | eapply triple_bind;
      [ first [ apply triple_pop | apply triple_getc | apply triple_next
              | apply triple_putc | apply triple_check_bounds
              | apply triple_get_ip | apply triple_trace
              | apply triple_push;
                eauto using wrap_range, land_int32, lor_int32, lxor_int32 ]
      | intros ? ] ].

(** An address [check_bounds] let through, read as a 32-bit word. *)
Lemma within_bounds_range a :
  int32 a -> within_bounds a = true -> 0 <= a <= CAPACITY.
Proof. intros Ha Hb. apply within_bounds_true; assumption. Qed.

Lemma triple_dispatch w : triple wf (dispatch w) (fun _ m => wf m).
Proof.
  unfold dispatch. destruct (Op_of_word w) as [op|].
  2:{ intros m Hwf. exact Hwf. }
  destruct op; triple_auto.
  - (* NOT *)
    destruct (x =? 0); unfold int32; lia.
  - (* LOAD *)
    eapply triple_bind; [apply triple_memory_get; eauto using within_bounds_range|].
    intros v. triple_auto.
  - (* STOR *)
    eapply triple_bind;
      [apply triple_memory_set; eauto using within_bounds_range|].
    intros ?. apply triple_next.
  - (* JMP *)
    eapply triple_bind with (Q := fun _ m => wf m).
    + destruct (x =? x1); [apply triple_stop|].
      intros m Hwf. exact Hwf.
    + intros ?. apply triple_set_ip. eauto using within_bounds_range.
  - (* JZ *)
    destruct (x =? 0) eqn:E; cbn [negb]; [|apply triple_next].
    apply Z.eqb_eq in E. subst x.
    eapply triple_bind; [apply triple_check_bounds|].
    intros ?. apply triple_assume. intros _.
    apply triple_set_ip. rewrite CAPACITY_eq. lia.
  - (* PUSH *)
    eapply triple_bind; [apply triple_memory_get; assumption|].
    intros v. triple_auto.
Qed.

Lemma triple_step : triple wf step (fun _ m => wf m).
Proof.
  unfold step. eapply triple_bind; [apply triple_get_ip|].
  intros i. apply triple_assume. intros Hi.
  eapply triple_bind; [apply triple_memory_get; exact Hi|].
  intros w. apply triple_assume. intros _.
  eapply triple_bind; [apply triple_trace|].
  intros ?. apply triple_dispatch.
Qed.

Lemma loop_triple fuel : triple wf (loop fuel) (fun _ m => wf m).
Proof.
  induction fuel as [|fuel IH]; intros m Hwf; cbn [loop].
  - exact Hwf.
  - pose proof (triple_step m Hwf) as Hstep.
    destruct (step m) as [[] m1|s m1|u m1|m1]; try exact Hstep.
    apply IH, Hstep.
Qed.

Lemma boot_wf input : wf (boot input).
Proof.
  unfold wf, boot. cbn. split; [constructor|]. split.
  - intros a _. unfold cell. rewrite lookup_empty. cbn. unfold int32. lia.
  - rewrite CAPACITY_eq. lia.
Qed.

Lemma wf_of_map_Forall m :
  Forall int32 (stack m) ->
  map_Forall (fun _ v => int32 v) (memory m) ->
  0 <= ip m <= CAPACITY ->
  wf m.
Proof.
  intros Hs Hm Hi. split; [exact Hs|]. split; [|exact Hi].
  intros a _. unfold cell. destruct (memory m !! a) as [v|] eqn:E; cbn.
  - exact (Hm a v E).
  - unfold int32. lia.
Qed.

(** X2: on a 32-bit word [check_bounds] returns exactly for 0 up to and
    including CAPACITY; for any other word it prints the message followed
    by " out of bounds" on the error stream and exits with status 1,
    leaving the rest of the machine alone. *)
Theorem check_bounds_accepts_up_to_capacity n msg m :
  int32 n ->
  (0 <= n <= CAPACITY -> check_bounds n msg m = Ok tt m) /\
  (n < 0 \/ CAPACITY < n ->
     check_bounds n msg m =
       Exit 1 (with_stderr (stderr m ++ [Line (msg ++ " out of bounds")]) m)).
Proof.
  intros Hn. unfold check_bounds. split.
  - intros Hin. apply (within_bounds_true n Hn) in Hin. rewrite Hin.
    reflexivity.
  - intros Hout. rewrite (within_bounds_false n Hn Hout). reflexivity.
Qed.

Lemma check_bounds_witness :
  int32 CAPACITY /\
  check_bounds CAPACITY "LOAD" (boot []) = Ok tt (boot []).
Proof.
  split; [unfold int32; rewrite CAPACITY_eq; lia|].
  apply (check_bounds_accepts_up_to_capacity CAPACITY "LOAD" (boot [])).
  - unfold int32. rewrite CAPACITY_eq. lia.
  - rewrite CAPACITY_eq. lia.
Defined.

(** X3: started on a machine whose Stack and cells hold 32-bit words and
    whose [ip] is between 0 and CAPACITY, the loop only ever reaches such
    machines, however many iterations it runs and however it ends. *)
Theorem loop_keeps_words_and_ip_in_range fuel m :
  wf m -> wf (machine_of (loop fuel m)).
Proof.
  intros Hwf. pose proof (loop_triple fuel m Hwf) as H.
  destruct (loop fuel m) as [[] m1|s m1|u m1|m1]; cbn; tauto.
Qed.

Lemma loop_keeps_wf_witness :
  wf (boot []) /\ wf (machine_of (loop 3 (boot []))).
Proof.
  split; [apply boot_wf|].
  apply (loop_keeps_words_and_ip_in_range 3 (boot [])). apply boot_wf.
Defined.

(** X4: from such a machine the only index outside the array that a
    fetch, a PUSH operand read, a LOAD or a STOR can touch is CAPACITY
    itself, one past the last cell: never a negative index, never one
    further out. *)
Theorem array_access_at_most_one_past_end fuel m i m' :
  wf m ->
  loop fuel m = Undefined (OutsideArray i) m' ->
  i = CAPACITY.
Proof.
  intros Hwf Hl. pose proof (loop_triple fuel m Hwf) as H.
  rewrite Hl in H. apply H.
Qed.

Lemma array_access_witness :
  let m := Machine [CAPACITY] {[ 0 := Op_value LOAD ]} 0 [] [] [] in
  wf m /\
  loop 1 m = Undefined (OutsideArray CAPACITY) (with_stack [] (traced m)) /\
  CAPACITY = CAPACITY.
Proof.
  intros m.
  assert (Hwf : wf m).
  { apply wf_of_map_Forall; unfold m; cbn [stack memory ip].
    - constructor; [unfold int32; rewrite CAPACITY_eq; lia | constructor].
    - apply map_Forall_singleton. cbn. unfold int32. lia.
    - rewrite CAPACITY_eq. lia. }
  split; [exact Hwf|]. split; [vm_compute; reflexivity|].
  apply (array_access_at_most_one_past_end 1 m CAPACITY
           (with_stack [] (traced m)) Hwf).
  vm_compute. reflexivity.
Defined.

(** ** What one iteration touches *)

(** Splits the goal on every test the dispatch makes. *)
Ltac split_goal_tests :=
  repeat (match goal with
          | |- context [match fin ?m with _ => _ end] => destruct (fin m) eqn:?
          | |- context [if within_bounds ?a then _ else _] =>
              destruct (within_bounds a) eqn:?
          | |- context [if in_array ?a then _ else _] =>
              destruct (in_array a) eqn:?
          | |- context [if ?a =? ?b then _ else _] => destruct (a =? b) eqn:?
          | |- context [if negb (?a =? ?b) then _ else _] =>
              destruct (a =? b) eqn:?
          end;
          cbn [negb machine_of stack memory ip fin fout stderr
               with_stack with_memory with_ip with_fin with_fout with_stderr]).

(** X5: an iteration runs into [pop()] on an empty vector exactly when the
    Stack holds fewer words than the fetched opcode pops. *)
Theorem pop_of_empty_iff_too_few_operands m :
  (exists m', step m = Undefined BackOfEmpty m') <->
  (exists op, fetched m = Some op /\ (length (stack m) < operands op)%nat).
Proof.
  split.
  - intros [m' H]. destruct (in_array (ip m)) eqn:Hin.
    2:{ rewrite step_outside in H by exact Hin. discriminate H. }
    rewrite step_dispatch in H by exact Hin.
    assert (Hf : fetched m = Op_of_word (cell (memory m) (ip m)))
      by (unfold fetched; rewrite Hin; reflexivity).
    unfold dispatch in H.
    destruct (Op_of_word (cell (memory m) (ip m))) as [op|]; [|discriminate H].
    exists op. split; [exact Hf|].
    destruct op; revert H; run_case; intros H;
      destruct (stack m) as [|x [|y l]] eqn:Hs; cbn [length operands];
      try lia; exfalso; cbn [stack with_stack] in H; split_tests H.
  - intros (op & Hf & Hlen). rewrite (step_op _ _ Hf).
    destruct op; cbn [operands] in Hlen; try lia;
      destruct (stack m) as [|x [|y l]] eqn:Hs; cbn [length] in Hlen; try lia;
      run_case; rewrite Hs; sm_fields; eexists; reflexivity.
Qed.

(** X6: an iteration that completes changes the depth of the Stack by the
    pushes of its opcode minus its pops (DUP: plus one; ADD, SUB, AND, OR,
    XOR, OUT, JMP, JZ: minus one; STOR: minus two; IN, PUSH: plus one;
    NOP, NOT, LOAD: none). *)
Theorem stack_depth_effect m op m' :
  fetched m = Some op ->
  step m = Ok tt m' ->
  (length (stack m') + operands op = length (stack m) + results op)%nat.
Proof.
  intros Hf H. rewrite (step_op _ _ Hf) in H.
  destruct op; revert H; run_case; intros H;
    destruct (stack m) as [|x [|y l]] eqn:Hs;
    cbn [stack with_stack] in H; split_tests H;
    injection H as <-; sm_fields; rewrite ?Hs;
    cbn [length operands results]; lia.
Qed.

Lemma stack_depth_effect_witness :
  let m := Machine [3; 4; 5] {[ 0 := Op_value DUP ]} 0 [] [] [] in
  fetched m = Some DUP /\
  step m = Ok tt (with_ip 4 (with_stack [3; 3; 4; 5] (traced m))) /\
  (4 + 1 = 3 + 2)%nat.
Proof.
  intros m. split; [vm_compute; reflexivity|].
  split; [vm_compute; reflexivity|].
  apply (stack_depth_effect m DUP
           (with_ip 4 (with_stack [3; 3; 4; 5] (traced m))));
    vm_compute; reflexivity.
Defined.

(** X7: an iteration leaves Memory as it found it, however it ends,
    unless it is a STOR that passed its bounds check with an address
    inside the array; that one replaces the single cell addressed. *)
Theorem memory_written_by_stor_only m :
  memory (machine_of (step m)) = memory m \/
  (fetched m = Some STOR /\
   exists a b rest,
     stack m = a :: b :: rest /\ in_array a = true /\
     memory (machine_of (step m)) = <[a := b]> (memory m)).
Proof.
  destruct (in_array (ip m)) eqn:Hin.
  2:{ rewrite step_outside by exact Hin. left. reflexivity. }
  rewrite step_dispatch by exact Hin.
  assert (Hf : fetched m = Op_of_word (cell (memory m) (ip m)))
    by (unfold fetched; rewrite Hin; reflexivity).
  unfold dispatch.
  destruct (Op_of_word (cell (memory m) (ip m))) as [op|];
    [|left; reflexivity].
  destruct op; run_case;
    destruct (stack m) as [|x [|y l]] eqn:Hs;
    cbn [machine_of stack with_stack]; split_goal_tests;
    try (left; reflexivity).
  right. split; [exact Hf|]. exists x, y, l. auto.
Qed.

(** A byte goes out only in OUT, and comes in only in IN. *)
Lemma step_output m :
  fout (machine_of (step m)) = fout m \/
  exists c, fout (machine_of (step m)) = fout m ++ [c].
Proof.
  destruct (in_array (ip m)) eqn:Hin.
  2:{ rewrite step_outside by exact Hin. left. reflexivity. }
  rewrite step_dispatch by exact Hin. unfold dispatch.
  destruct (Op_of_word (cell (memory m) (ip m))) as [op|];
    [|left; reflexivity].
  destruct op; run_case;
    destruct (stack m) as [|x [|y l]] eqn:Hs;
    cbn [machine_of stack with_stack]; split_goal_tests;
    try (left; reflexivity); right; eexists; reflexivity.
Qed.

Lemma step_input m :
  fin m = fin (machine_of (step m)) \/
  exists c, fin m = c :: fin (machine_of (step m)).
Proof.
  destruct (in_array (ip m)) eqn:Hin.
  2:{ rewrite step_outside by exact Hin. left. reflexivity. }
  rewrite step_dispatch by exact Hin. unfold dispatch.
  destruct (Op_of_word (cell (memory m) (ip m))) as [op|];
    [|left; reflexivity].
  destruct op; run_case;
    destruct (stack m) as [|x [|y l]] eqn:Hs;
    cbn [machine_of stack with_stack]; split_goal_tests;
    rewrite ?fin_traced;
    try match goal with E : fin m = _ |- _ => rewrite E end;
    try (left; reflexivity); right; eexists; reflexivity.
Qed.

(** X8: the loop never takes back what it wrote nor re-reads what it
    read: after any number of iterations the output is the old output
    followed by at most one byte per iteration, and the input left is a
    suffix of the old input, at most one byte shorter per iteration. *)
Theorem loop_io_is_sequential fuel : forall m,
  (exists out,
     fout (machine_of (loop fuel m)) = fout m ++ out /\
     (length out <= fuel)%nat) /\
  (exists used,
     fin m = used ++ fin (machine_of (loop fuel m)) /\
     (length used <= fuel)%nat).
Proof.
  induction fuel as [|fuel IH]; intros m; cbn [loop].
  - split; exists []; cbn; rewrite ?app_nil_r; auto.
  - pose proof (step_output m) as Hout. pose proof (step_input m) as Hin.
    destruct (step m) as [[] m1|s m1|u m1|m1]; cbn [machine_of] in *.
    + destruct (IH m1) as ((out & Ho & Hlo) & (used & Hu & Hlu)). split.
      * destruct Hout as [E|[c E]]; rewrite E in Ho.
        -- exists out. split; [exact Ho | lia].
        -- exists (c :: out). rewrite Ho, <- app_assoc. cbn. split; [reflexivity | lia].
      * destruct Hin as [E|[c E]]; rewrite E.
        -- exists used. split; [exact Hu | lia].
        -- exists (c :: used). rewrite Hu at 1. cbn. split; [reflexivity | lia].
    + split.
      * destruct Hout as [E|[c E]]; [exists [] | exists [c]];
          rewrite E, ?app_nil_r; cbn; split; (reflexivity || lia).
      * destruct Hin as [E|[c E]]; [exists [] | exists [c]];
          rewrite E; cbn; split; (reflexivity || lia).
    + split.
      * destruct Hout as [E|[c E]]; [exists [] | exists [c]];
          rewrite E, ?app_nil_r; cbn; split; (reflexivity || lia).
      * destruct Hin as [E|[c E]]; [exists [] | exists [c]];
          rewrite E; cbn; split; (reflexivity || lia).
    + split.
      * destruct Hout as [E|[c E]]; [exists [] | exists [c]];
          rewrite E, ?app_nil_r; cbn; split; (reflexivity || lia).
      * destruct Hin as [E|[c E]]; [exists [] | exists [c]];
          rewrite E; cbn; split; (reflexivity || lia).
Qed.

(** ** Round trips *)

(** X9: [push(v)] followed by [pop()] returns [v] and leaves the machine,
    Stack included, exactly as it was. *)
Theorem push_then_pop v m : (push v;; pop) m = Ok v m.
Proof. destruct m. reflexivity. Qed.

(** X10: a STOR with an address inside the array sets that cell to the
    value popped second and no other cell; any later LOAD of the same
    address, run on that Memory, pushes the stored value. *)
Theorem stor_then_load m a b rest :
  fetched m = Some STOR ->
  stack m = a :: b :: rest ->
  in_array a = true ->
  exists m1,
    step m = Ok tt m1 /\
    cell (memory m1) a = b /\
    (forall c, c <> a -> cell (memory m1) c = cell (memory m) c) /\
    forall m2 rest2,
      memory m2 = memory m1 ->
      fetched m2 = Some LOAD ->
      stack m2 = a :: rest2 ->
      step m2 =
        Ok tt (with_ip (next_ip (ip m2)) (with_stack (b :: rest2) (traced m2))).
Proof.
  intros Hf Hs Ha. pose proof (in_array_within_bounds a Ha) as Hb.
  rewrite (step_op _ _ Hf). run_case. rewrite Hs. sm_fields.
  rewrite Hb. sm_fields. rewrite Ha.
  eexists. split; [reflexivity|]. cbn [memory with_memory with_ip with_stack].
  rewrite ?memory_traced.
  assert (Hcell : cell (<[a := b]> (memory m)) a = b).
  { rewrite cell_insert. destruct (decide (a = a)); congruence. }
  split; [exact Hcell|]. split.
  - intros c Hc. rewrite cell_insert. destruct (decide (a = c)); congruence.
  - intros m2 rest2 Hm Hf2 Hs2. rewrite (step_op _ _ Hf2). run_case.
    rewrite Hs2. sm_fields. rewrite Hb. sm_fields. rewrite Ha.
    sm_fields. cbn [memory with_stack]. rewrite memory_traced, Hm, Hcell.
    reflexivity.
Qed.

Lemma stor_then_load_witness :
  let m := Machine [20; 77] {[ 0 := Op_value STOR ]} 0 [] [] [] in
  fetched m = Some STOR /\ stack m = [20; 77] /\ in_array 20 = true /\
  exists m1, step m = Ok tt m1 /\ cell (memory m1) 20 = 77.
Proof.
  intros m. split; [vm_compute; reflexivity|]. split; [reflexivity|].
  split; [reflexivity|].
  destruct (stor_then_load m 20 77 []) as (m1 & Hstep & Hcell & _);
    [vm_compute; reflexivity | reflexivity | reflexivity |].
  exists m1. split; assumption.
Defined.

(** ** Running small programs *)

Lemma fetched_at m op :
  in_array (ip m) = true ->
  cell (memory m) (ip m) = Op_value op ->
  fetched m = Some op.
Proof.
  intros Hin Hc. unfold fetched. rewrite Hin, Hc. apply Op_of_word_value.
Qed.

(** Iterations add up. *)
Lemma loop_add j k : forall m,
  loop (j + k) m =
    match loop j m with
    | Running m' => loop k m'
    | other => other
    end.
Proof.
  induction j as [|j IH]; intros m; cbn [loop Nat.add].
  - reflexivity.
  - destruct (step m) as [[] m1|s m1|u m1|m1] eqn:E; try reflexivity.
    + apply IH.
    + exfalso. exact (step_not_running _ _ E).
Qed.

(** An outcome other than [Running] is final: more iterations change
    nothing. *)
Lemma loop_exit_more j k m s m' :
  loop j m = Exit s m' -> loop (j + k) m = Exit s m'.
Proof. intros H. rewrite loop_add, H. reflexivity. Qed.

Lemma step_in m :
  fetched m = Some IN ->
  step m =
    Ok tt
      match fin m with
      | [] => with_ip (next_ip (ip m)) (with_stack (-1 :: stack m) (traced m))
      | c :: rest =>
          with_ip (next_ip (ip m))
            (with_stack (chr c :: stack m) (with_fin rest (traced m)))
      end.
Proof.
  intros Hf. rewrite (step_op _ _ Hf). run_case. destruct (fin m); reflexivity.
Qed.

Lemma step_out m c rest :
  fetched m = Some OUT ->
  stack m = c :: rest ->
  step m =
    Ok tt (with_ip (next_ip (ip m))
             (with_fout (fout m ++ [ascii_of_N (Z.to_N (c mod 256))])
                (with_stack rest (traced m)))).
Proof.
  intros Hf Hs. rewrite (step_op _ _ Hf). run_case. rewrite Hs. reflexivity.
Qed.

Lemma step_push m :
  fetched m = Some PUSH ->
  in_array (next_ip (ip m)) = true ->
  step m =
    Ok tt (with_ip (next_ip (next_ip (ip m)))
             (with_stack (cell (memory m) (next_ip (ip m)) :: stack m)
                (traced m))).
Proof.
  intros Hf Hin. rewrite (step_op _ _ Hf). run_case. rewrite Hin.
  reflexivity.
Qed.

(** A byte survives the trip through [getc], the Stack and [putc]. *)
Lemma byte_of_chr c : ascii_of_N (Z.to_N (chr c mod 256)) = c.
Proof.
  unfold chr. pose proof (N_ascii_bounded c) as Hc.
  rewrite Z.mod_small by lia. rewrite N2Z.id. apply ascii_N_embedding.
Qed.

(** X11: a run of IN, OUT pairs laid out from [ip] (IN at [ip + 8 k], OUT
    four cells on) copies as many input bytes to the output, in order and
    unchanged, two iterations per byte; the Stack and Memory end as they
    started and [ip] stands after the last pair. *)
Theorem echo_pairs_copy_input bytes : forall m rest,
  fin m = bytes ++ rest ->
  0 <= ip m ->
  ip m + 8 * Z.of_nat (length bytes) <= CAPACITY ->
  (forall k, (k < length bytes)%nat ->
     cell (memory m) (ip m + 8 * Z.of_nat k) = Op_value IN /\
     cell (memory m) (ip m + 8 * Z.of_nat k + 4) = Op_value OUT) ->
  exists m',
    loop (2 * length bytes) m = Running m' /\
    fout m' = fout m ++ bytes /\
    fin m' = rest /\
    stack m' = stack m /\
    memory m' = memory m /\
    ip m' = ip m + 8 * Z.of_nat (length bytes).
Proof.
  induction bytes as [|c bytes IH]; intros m rest Hfin H0 Hcap Hprog.
  - exists m. cbn [length Nat.mul loop app] in *. rewrite app_nil_r.
    repeat split; try assumption. change (Z.of_nat 0) with 0. lia.
  - cbn [length] in *. rewrite Nat2Z.inj_succ in *.
    destruct (Hprog O ltac:(lia)) as [Hin Hout].
    cbn [Z.of_nat] in Hin, Hout. rewrite Z.mul_0_r, Z.add_0_r in Hin, Hout.
    rewrite CAPACITY_eq in Hcap.
    assert (Hf : fetched m = Some IN).
    { apply fetched_at; [apply in_array_true; rewrite CAPACITY_eq; lia | exact Hin]. }
    assert (Hn1 : next_ip (ip m) = ip m + 4)
      by (apply next_ip_advance; unfold size; rewrite ?CAPACITY_eq; lia).
    assert (Hn2 : next_ip (ip m + 4) = ip m + 8).
    { rewrite next_ip_advance; unfold size; rewrite ?CAPACITY_eq; lia. }
    replace (2 * S (length bytes))%nat with (2 + 2 * length bytes)%nat by lia.
    rewrite loop_add. cbn [loop].
    rewrite (step_in m Hf), Hfin. cbn [app]. rewrite Hn1.
    set (m1 := with_ip (ip m + 4) _).
    assert (Hf1 : fetched m1 = Some OUT).
    { apply fetched_at; subst m1; cbn [ip with_ip memory with_stack with_fin];
        rewrite ?memory_traced;
        [apply in_array_true; rewrite CAPACITY_eq; lia | exact Hout]. }
    rewrite (step_out m1 (chr c) (stack m) Hf1) by reflexivity.
    subst m1. sm_fields. rewrite Hn2, byte_of_chr.
    set (m2 := with_ip (ip m + 8) _).
    destruct (IH m2 rest) as (m' & Hl & Hfo & Hfi & Hst & Hmem & Hip).
    + reflexivity.
    + subst m2. cbn [ip with_ip]. lia.
    + subst m2. cbn [ip with_ip]. rewrite CAPACITY_eq. lia.
    + intros k Hk. subst m2. cbn [ip with_ip memory with_fout with_stack with_fin].
      rewrite ?memory_traced.
      destruct (Hprog (S k) ltac:(lia)) as [Hi Ho].
      rewrite Nat2Z.inj_succ in Hi, Ho.
      split; [rewrite <- Hi | rewrite <- Ho]; f_equal; lia.
    + exists m'. split; [exact Hl|]. subst m2.
      cbn [fout with_fout with_ip stack with_stack memory with_fin ip] in *.
      rewrite ?memory_traced, ?stack_traced, ?fout_traced in *.
      rewrite Hfo, <- app_assoc. cbn [app].
      repeat split; try assumption. lia.
Qed.

Lemma echo_pairs_witness :
  let m := Machine [] {[ 0 := Op_value IN; 4 := Op_value OUT ]} 0
             ["h"%char; "i"%char] [] [] in
  fin m = ["h"%char] ++ ["i"%char] /\
  0 <= ip m /\
  exists m', loop 2 m = Running m' /\ fout m' = ["h"%char].
Proof.
  intros m. split; [reflexivity|]. split; [cbn; lia|].
  destruct (echo_pairs_copy_input ["h"%char] m ["i"%char])
    as (m' & Hl & Hfo & _).
  - reflexivity.
  - cbn. lia.
  - cbn. rewrite CAPACITY_eq. lia.
  - intros k Hk. cbn [length] in Hk.
    assert (k = O) as -> by lia. split; vm_compute; reflexivity.
  - exists m'. split; assumption.
Defined.

(** X12: at the end of the input an IN, OUT pair does not stop or fail:
    IN pushes -1 and OUT writes its low eight bits, the byte 0xFF. *)
Theorem echo_at_end_of_input_writes_ff m :
  fetched m = Some IN ->
  fin m = [] ->
  0 <= ip m ->
  ip m + 8 <= CAPACITY ->
  cell (memory m) (ip m + 4) = Op_value OUT ->
  exists m',
    loop 2 m = Running m' /\
    fout m' = fout m ++ ["255"%char] /\
    fin m' = [] /\ stack m' = stack m /\ ip m' = ip m + 8.
Proof.
  intros Hf Hfin H0 Hcap Hout. rewrite CAPACITY_eq in Hcap.
  assert (Hn1 : next_ip (ip m) = ip m + 4)
    by (apply next_ip_advance; unfold size; rewrite ?CAPACITY_eq; lia).
  assert (Hn2 : next_ip (ip m + 4) = ip m + 8).
  { rewrite next_ip_advance; unfold size; rewrite ?CAPACITY_eq; lia. }
  cbn [loop]. rewrite (step_in m Hf), Hfin, Hn1.
  set (m1 := with_ip (ip m + 4) _).
  assert (Hf1 : fetched m1 = Some OUT).
  { apply fetched_at; subst m1; cbn [ip with_ip memory with_stack];
      rewrite ?memory_traced;
      [apply in_array_true; rewrite CAPACITY_eq; lia | exact Hout]. }
  rewrite (step_out m1 (-1) (stack m) Hf1) by reflexivity.
  subst m1. sm_fields. rewrite Hn2.
  eexists. split; [reflexivity|].
  cbn [fout with_fout with_ip stack with_stack fin ip].
  rewrite ?fout_traced, ?fin_traced, ?stack_traced.
  repeat split. exact Hfin.
Qed.

Lemma echo_at_end_of_input_witness :
  let m := Machine [] {[ 0 := Op_value IN; 4 := Op_value OUT ]} 0 [] [] [] in
  fetched m = Some IN /\ fin m = [] /\
  exists m', loop 2 m = Running m' /\ fout m' = ["255"%char].
Proof.
  intros m. split; [vm_compute; reflexivity|]. split; [reflexivity|].
  destruct (echo_at_end_of_input_writes_ff m) as (m' & Hl & Hfo & _).
  - vm_compute. reflexivity.
  - reflexivity.
  - cbn. lia.
  - cbn. rewrite CAPACITY_eq. lia.
  - vm_compute. reflexivity.
  - exists m'. split; assumption.
Defined.

Lemma step_jmp_self m rest :
  fetched m = Some JMP ->
  stack m = ip m :: rest ->
  step m =
    Exit 0 (with_stderr (stderr (traced m) ++ [Line "HALT"])
              (with_stack rest (traced m))).
Proof.
  intros Hf Hs. rewrite (step_op _ _ Hf). run_case. rewrite Hs. sm_fields.
  rewrite (in_array_within_bounds _ (fetched_in_array _ _ Hf)). sm_fields.
  rewrite Z.eqb_refl. reflexivity.
Qed.

(** X13: the halting idiom works wherever it is placed: PUSH at [ip], the
    index [ip + 8] as its operand four cells on, JMP at [ip + 8]. Two
    iterations later the process exits with status 0; nothing was written
    to the output or read from the input, and the Stack and Memory are as
    before. *)
Theorem push_own_address_jmp_halts m :
  fetched m = Some PUSH ->
  0 <= ip m ->
  ip m + 8 < CAPACITY ->
  cell (memory m) (ip m + 4) = ip m + 8 ->
  cell (memory m) (ip m + 8) = Op_value JMP ->
  forall extra,
    exists m',
      loop (2 + extra) m = Exit 0 m' /\
      fout m' = fout m /\ fin m' = fin m /\
      stack m' = stack m /\ memory m' = memory m /\ ip m' = ip m + 8.
Proof.
  intros Hf H0 Hcap Hop Hjmp extra. rewrite CAPACITY_eq in Hcap.
  assert (Hn1 : next_ip (ip m) = ip m + 4)
    by (apply next_ip_advance; unfold size; rewrite ?CAPACITY_eq; lia).
  assert (Hn2 : next_ip (ip m + 4) = ip m + 8).
  { rewrite next_ip_advance; unfold size; rewrite ?CAPACITY_eq; lia. }
  assert (Hin : in_array (next_ip (ip m)) = true)
    by (rewrite Hn1; apply in_array_true; rewrite CAPACITY_eq; lia).
  eexists. split.
  - apply loop_exit_more. cbn [loop].
    rewrite (step_push m Hf Hin), Hn1, Hn2, Hop.
    set (m1 := with_ip (ip m + 8) _).
    assert (Hf1 : fetched m1 = Some JMP).
    { apply fetched_at; subst m1; cbn [ip with_ip memory with_stack];
        rewrite ?memory_traced;
        [apply in_array_true; rewrite CAPACITY_eq; lia | exact Hjmp]. }
    rewrite (step_jmp_self m1 (stack m) Hf1) by reflexivity.
    reflexivity.
  - cbn [fout fin stack memory ip with_stderr with_stack with_ip].
    rewrite ?fout_traced, ?fin_traced, ?memory_traced.
    repeat split.
Qed.

Lemma push_own_address_jmp_witness :
  let m := Machine [5] {[ 40 := Op_value PUSH; 44 := 48; 48 := Op_value JMP ]}
             40 [] [] [] in
  fetched m = Some PUSH /\ 0 <= ip m /\ ip m + 8 < CAPACITY /\
  exists m', loop 2 m = Exit 0 m' /\ fout m' = [] /\ stack m' = [5].
Proof.
  intros m. split; [vm_compute; reflexivity|]. split; [cbn; lia|].
  split; [cbn; rewrite CAPACITY_eq; lia|].
  destruct (push_own_address_jmp_halts m) with (extra := O)
    as (m' & Hl & Hfo & _ & Hst & _).
  - vm_compute. reflexivity.
  - cbn. lia.
  - cbn. rewrite CAPACITY_eq. lia.
  - vm_compute. reflexivity.
  - vm_compute. reflexivity.
  - exists m'. split; [exact Hl|]. split; assumption.
Defined.

(** ** The loader *)

Lemma load_in_array n m :
  in_array (ip m) = true ->
  load n m =
    Ok tt (with_ip (next_ip (ip m))
             (with_memory (<[ip m := n]> (memory m)) m)).
Proof.
  intros Hin. unfold load, mbind, M_bind, get, memory_set, next, modify.
  rewrite Hin. reflexivity.
Qed.

(** X14: loader and engine agree on the layout. [load(PUSH); load(c);
    load(OUT)] at an [ip] with twelve cells to spare fills the cells
    [ip], [ip + 4] and [ip + 8] only and leaves [ip] twelve further; run
    from where the loading began, the three words print exactly the byte
    [c] in two iterations and stop where the loader stopped, the Stack
    unchanged. *)
Theorem load_print_then_run m c :
  0 <= ip m ->
  ip m + 12 <= CAPACITY ->
  exists m1 m2,
    load_print c m = Ok tt m1 /\
    ip m1 = ip m + 12 /\
    (forall a, a <> ip m -> a <> ip m + 4 -> a <> ip m + 8 ->
       cell (memory m1) a = cell (memory m) a) /\
    loop 2 (with_ip (ip m) m1) = Running m2 /\
    fout m2 = fout m ++ [c] /\
    stack m2 = stack m /\ memory m2 = memory m1 /\ ip m2 = ip m1.
Proof.
  intros H0 Hcap. rewrite CAPACITY_eq in Hcap.
  assert (Hn0 : next_ip (ip m) = ip m + 4)
    by (apply next_ip_advance; unfold size; rewrite ?CAPACITY_eq; lia).
  assert (Hn4 : next_ip (ip m + 4) = ip m + 8)
    by (rewrite next_ip_advance; unfold size; rewrite ?CAPACITY_eq; lia).
  assert (Hn8 : next_ip (ip m + 8) = ip m + 12)
    by (rewrite next_ip_advance; unfold size; rewrite ?CAPACITY_eq; lia).
  assert (Hi0 : in_array (ip m) = true)
    by (apply in_array_true; rewrite CAPACITY_eq; lia).
  assert (Hi4 : in_array (ip m + 4) = true)
    by (apply in_array_true; rewrite CAPACITY_eq; lia).
  assert (Hi8 : in_array (ip m + 8) = true)
    by (apply in_array_true; rewrite CAPACITY_eq; lia).
  unfold load_print, load_op, mbind, M_bind.
  rewrite (load_in_array _ m Hi0), Hn0.
  rewrite load_in_array by exact Hi4.
  cbn [ip with_ip memory with_memory]. rewrite Hn4.
  rewrite load_in_array by exact Hi8.
  cbn [ip with_ip memory with_memory]. rewrite Hn8.
  set (mem1 := <[ip m + 8 := Op_value OUT]> _).
  assert (Hc0 : cell mem1 (ip m) = Op_value PUSH).
  { subst mem1. do 3 rewrite cell_insert.
    repeat case_decide; try lia; reflexivity. }
  assert (Hc4 : cell mem1 (ip m + 4) = chr c).
  { subst mem1. do 3 rewrite cell_insert.
    repeat case_decide; try lia; reflexivity. }
  assert (Hc8 : cell mem1 (ip m + 8) = Op_value OUT).
  { subst mem1. do 3 rewrite cell_insert.
    repeat case_decide; try lia; reflexivity. }
  eexists. eexists. split; [reflexivity|].
  cbn [ip with_ip memory with_memory].
  split; [reflexivity|]. split.
  { intros a Ha0 Ha4 Ha8. subst mem1. do 3 rewrite cell_insert.
    repeat case_decide; try lia; reflexivity. }
  set (m0 := with_ip (ip m) _).
  assert (Hf0 : fetched m0 = Some PUSH).
  { apply fetched_at; subst m0; cbn [ip with_ip memory with_memory];
      [exact Hi0 | exact Hc0]. }
  assert (Hip0 : ip m0 = ip m) by reflexivity.
  assert (Hmem0 : memory m0 = mem1) by reflexivity.
  assert (Hst0 : stack m0 = stack m) by reflexivity.
  assert (Hfo0 : fout m0 = fout m) by reflexivity.
  cbn [loop]. rewrite (step_push m0 Hf0) by (rewrite Hip0, Hn0; exact Hi4).
  rewrite Hip0, Hn0, Hn4, Hmem0, Hc4, Hst0.
  set (m1 := with_ip (ip m + 8) _).
  assert (Hf1 : fetched m1 = Some OUT).
  { apply fetched_at; subst m1; cbn [ip with_ip memory with_stack];
      rewrite ?memory_traced, ?Hmem0; [exact Hi8 | exact Hc8]. }
  rewrite (step_out m1 (chr c) (stack m) Hf1) by reflexivity.
  rewrite byte_of_chr. subst m1.
  split; [reflexivity|].
  subst m0 mem1.
  cbn [fout with_fout with_ip stack with_stack memory with_memory ip].
  rewrite ?fout_traced, ?memory_traced.
  cbn [fout with_fout with_ip stack with_stack memory with_memory ip].
  rewrite Hn8. repeat split.
Qed.

Lemma load_print_then_run_witness :
  0 <= ip (boot []) /\ ip (boot []) + 12 <= CAPACITY /\
  exists m1 m2,
    load_print "A" (boot []) = Ok tt m1 /\
    loop 2 (with_ip 0 m1) = Running m2 /\ fout m2 = ["A"%char].
Proof.
  split; [cbn; lia|]. split; [cbn; rewrite CAPACITY_eq; lia|].
  destruct (load_print_then_run (boot []) "A")
    as (m1 & m2 & Hload & _ & _ & Hl & Hfo & _).
  - cbn. lia.
  - cbn. rewrite CAPACITY_eq. lia.
  - exists m1, m2. split; [exact Hload|]. split; [exact Hl | exact Hfo].
Defined.

(** ** Arguments and help *)

Lemma machine_eq a b :
  stack a = stack b -> memory a = memory b -> ip a = ip b ->
  fin a = fin b -> fout a = fout b -> stderr a = stderr b ->
  a = b.
Proof.
  destruct a, b. cbn [stack memory ip fin fout stderr].
  intros; subst; reflexivity.
Qed.

Lemma list_ascii_of_string_app s1 s2 :
  list_ascii_of_string (s1 ++ s2) =
  list_ascii_of_string s1 ++ list_ascii_of_string s2.
Proof.
  induction s1 as [|c s1 IH].
  - reflexivity.
  - change (c :: list_ascii_of_string (s1 ++ s2) =
            c :: (list_ascii_of_string s1 ++ list_ascii_of_string s2)).
    f_equal. exact IH.
Qed.

Lemma say_nothing m : say "" m = m.
Proof.
  destruct m. unfold say, with_fout.
  cbn [fout stack memory ip fin stderr list_ascii_of_string].
  now rewrite app_nil_r.
Qed.

Lemma say_say s1 s2 m : say s2 (say s1 m) = say (s1 ++ s2) m.
Proof.
  destruct m. unfold say, with_fout.
  cbn [fout stack memory ip fin stderr].
  now rewrite list_ascii_of_string_app, app_assoc.
Qed.

Lemma printf_bind {A} s (k : M A) m : (printf s;; k) m = k (say s m).
Proof. reflexivity. Qed.

(** The rows of the opcode table, then whatever follows. *)
Lemma help_rows_bind {A} ops : forall (k : M A) m,
  (fold_right (fun op k' => printf (help_row op);; k') (mret tt) ops;; k) m =
  k (say (fold_right (fun op s => help_row op ++ s)%string ""%string ops) m).
Proof.
  induction ops as [|op ops IH]; intros k m; cbn [fold_right].
  - rewrite say_nothing. reflexivity.
  - rewrite <- say_say, <- IH. reflexivity.
Qed.

Lemma help_exits m :
  help m = Exit 0 (with_fout (fout m ++ list_ascii_of_string help_text) m).
Proof.
  unfold help. rewrite help_rows_bind. rewrite !printf_bind.
  rewrite !say_say. unfold exit, say. reflexivity.
Qed.

Lemma scan_flag args : forall m,
  existsb is_flag args = true ->
  fold_right (fun arg k => (if is_flag arg then help else mret tt);; k)
    (mret tt) args m = help m.
Proof.
  induction args as [|arg args IH]; intros m H; cbn [existsb fold_right] in *.
  - discriminate H.
  - unfold mbind at 1. unfold M_bind. destruct (is_flag arg).
    + rewrite help_exits. reflexivity.
    + cbn [orb] in H. apply IH, H.
Qed.

Lemma scan_no_flag args : forall m,
  existsb is_flag args = false ->
  fold_right (fun arg k => (if is_flag arg then help else mret tt);; k)
    (mret tt) args m = Ok tt m.
Proof.
  induction args as [|arg args IH]; intros m H; cbn [existsb fold_right] in *.
  - reflexivity.
  - apply orb_false_iff in H as [Harg Hargs].
    unfold mbind at 1. unfold M_bind. rewrite Harg. apply IH, Hargs.
Qed.

Lemma bind_exit {A B} (c : M A) (k : A -> M B) m s m' :
  c m = Exit s m' -> (c ≫= k) m = Exit s m'.
Proof. intros H. unfold mbind, M_bind. rewrite H. reflexivity. Qed.

Lemma bind_ok {A B} (c : M A) (k : A -> M B) m x m' :
  c m = Ok x m' -> (c ≫= k) m = k x m'.
Proof. intros H. unfold mbind, M_bind. rewrite H. reflexivity. Qed.

(** X15: as soon as one argument after the program name starts with '-',
    [main] prints the help text once and exits with status 0; the machine
    is not reset, no program is loaded, nothing is traced and not one
    instruction runs. *)
Theorem main_with_flag_only_prints_help argv fuel m :
  existsb is_flag (tl argv) = true ->
  main argv fuel m =
    Exit 0 (with_fout (fout m ++ list_ascii_of_string help_text) m).
Proof.
  intros H. unfold main. apply bind_exit.
  unfold scan_args. rewrite (scan_flag _ m H). apply help_exits.
Qed.

Lemma main_with_flag_witness :
  existsb is_flag (tl ["sm"; "file"; "-h"; "x"]%string) = true /\
  main ["sm"; "file"; "-h"; "x"]%string 100 (boot []) =
    Exit 0 (with_fout (list_ascii_of_string help_text) (boot [])).
Proof.
  split; [reflexivity|].
  apply (main_with_flag_only_prints_help
           ["sm"; "file"; "-h"; "x"]%string 100 (boot [])).
  reflexivity.
Defined.

(** X16: arguments that do not start with '-' are ignored, and so is the
    program name even when it does: [main] then behaves as with no
    argument at all. *)
Theorem main_ignores_other_arguments argv fuel m :
  existsb is_flag (tl argv) = false ->
  main argv fuel m = main [] fuel m.
Proof.
  intros H. unfold main.
  rewrite (bind_ok (scan_args argv) _ m tt m)
    by (unfold scan_args; apply scan_no_flag, H).
  rewrite (bind_ok (scan_args []) _ m tt m) by reflexivity.
  reflexivity.
Qed.

Lemma main_ignores_other_arguments_witness :
  existsb is_flag (tl ["-sm"; "file"; "x-y"; ""]%string) = false /\
  main ["-sm"; "file"; "x-y"; ""]%string 5 (boot []) = main [] 5 (boot []).
Proof.
  split; [reflexivity|].
  apply (main_ignores_other_arguments
           ["-sm"; "file"; "x-y"; ""]%string 5 (boot [])).
  reflexivity.
Defined.

(** ** Exit status and message *)

Lemma step_exit_message m s m' :
  step m = Exit s m' ->
  (s = 0 /\ stderr m' = stderr (traced m) ++ [Line "HALT"]) \/
  (s = 1 /\ exists op,
      In op [LOAD; STOR; JMP] /\
      stderr m' = stderr (traced m) ++ [Line (Op_name op ++ " out of bounds")]).
Proof.
  intros H. destruct (in_array (ip m)) eqn:Hin.
  2:{ rewrite step_outside in H by exact Hin. discriminate H. }
  rewrite step_dispatch in H by exact Hin. unfold dispatch in H.
  destruct (Op_of_word (cell (memory m) (ip m))) as [op|]; [|discriminate H].
  destruct op; revert H; run_case; intros H;
    destruct (stack m) as [|x [|y l]] eqn:Hs; try discriminate H;
    cbn [stack with_stack] in H.
  all: try (split_tests H; fail).
  all: try (destruct (x =? 0) eqn:Hz; cbn [negb] in H;
            [apply Z.eqb_eq in Hz; subst x;
             change (within_bounds 0) with true in H; discriminate H
            | discriminate H]).
  all: split_tests H; injection H as <- <-;
    first [ left; split; reflexivity
          | right; split; [reflexivity|];
            first [ exists LOAD; split; [cbn; tauto | reflexivity]
                  | exists STOR; split; [cbn; tauto | reflexivity]
                  | exists JMP; split; [cbn; tauto | reflexivity] ] ].
Qed.

(** X17: when the loop makes the process exit, the status is 0 and the
    last line on the error stream is HALT, or the status is 1 and the last
    line is "LOAD out of bounds", "STOR out of bounds" or
    "JMP out of bounds". No other status occurs, and JZ never exits. *)
Theorem loop_exit_status_and_message fuel : forall m s m',
  loop fuel m = Exit s m' ->
  exists before,
    (s = 0 /\ stderr m' = before ++ [Line "HALT"]) \/
    (s = 1 /\ exists op,
        In op [LOAD; STOR; JMP] /\
        stderr m' = before ++ [Line (Op_name op ++ " out of bounds")]).
Proof.
  intros m s m' H.
  destruct (loop_exit _ _ _ _ H) as (k & m1 & _ & Hstep).
  exists (stderr (traced m1)). apply step_exit_message, Hstep.
Qed.

Lemma loop_exit_status_witness :
  let m := Machine [-1] {[ 0 := Op_value LOAD ]} 0 [] [] [] in
  loop 1 m =
    Exit 1 (with_stderr [Trace 0 "LOAD" 1 0 0; Line "LOAD out of bounds"]
              (with_stack [] m)) /\
  exists before,
    (1 = 0 /\ [Trace 0 "LOAD" 1 0 0; Line "LOAD out of bounds"]
              = before ++ [Line "HALT"]) \/
    (1 = 1 /\ exists op,
        In op [LOAD; STOR; JMP] /\
        [Trace 0 "LOAD" 1 0 0; Line "LOAD out of bounds"]
        = before ++ [Line (Op_name op ++ " out of bounds")]).
Proof.
  intros m. split; [vm_compute; reflexivity|].
  apply (loop_exit_status_and_message 1 m 1
           (with_stderr [Trace 0 "LOAD" 1 0 0; Line "LOAD out of bounds"]
              (with_stack [] m))).
  vm_compute. reflexivity.
Defined.

(** ** Operand order *)

(** X18: ADD, AND, OR and XOR push the same word whichever of the two top
    words is popped first, so the order in which C++ runs the two [pop()]
    calls of [pop() + pop()] cannot be observed. *)
Theorem commutative_ops_ignore_pop_order m op x y rest :
  fetched m = Some op ->
  In op [ADD; AND; OR; XOR] ->
  stack m = x :: y :: rest ->
  exists v,
    step m =
      Ok tt (with_ip (next_ip (ip m)) (with_stack (v :: rest) (traced m))) /\
    step (with_stack (y :: x :: rest) m) =
      Ok tt (with_ip (next_ip (ip m))
               (with_stack (v :: rest) (traced (with_stack (y :: x :: rest) m)))).
Proof.
  intros Hf Hop Hs.
  assert (Hf' : fetched (with_stack (y :: x :: rest) m) = Some op) by exact Hf.
  rewrite (step_op _ _ Hf), (step_op _ _ Hf').
  cbn [In] in Hop. destruct Hop as [<-|[<-|[<-|[<-|[]]]]];
    run_case; rewrite Hs; sm_fields.
  - exists (wrap (x + y)). rewrite (Z.add_comm y x). split; reflexivity.
  - exists (Z.land x y). rewrite (Z.land_comm y x). split; reflexivity.
  - exists (Z.lor x y). rewrite (Z.lor_comm y x). split; reflexivity.
  - exists (Z.lxor x y). rewrite (Z.lxor_comm y x). split; reflexivity.
Qed.

Lemma commutative_ops_witness :
  let m := Machine [6; 3] {[ 0 := Op_value AND ]} 0 [] [] [] in
  fetched m = Some AND /\ In AND [ADD; AND; OR; XOR] /\ stack m = [6; 3] /\
  exists v,
    step m = Ok tt (with_ip (next_ip (ip m)) (with_stack [v] (traced m))) /\
    step (with_stack [3; 6] m) =
      Ok tt (with_ip (next_ip (ip m))
               (with_stack [v] (traced (with_stack [3; 6] m)))).
Proof.
  intros m. split; [vm_compute; reflexivity|]. split; [cbn; tauto|].
  split; [reflexivity|].
  apply (commutative_ops_ignore_pop_order m AND 6 3 []);
    [vm_compute; reflexivity | cbn; tauto | reflexivity].
Defined.
